(** * Visual-regression helpers of the Playwright test suite

    A shallow embedding of [utilities/fileSystemHelpers.js]: the temp-file
    store ([createUniqueFileName], [getTempFilePath], [checkFileExists],
    [deleteTempFile], [readFile], [writeFile]), the remote image fetcher
    ([downloadImageFromUrlToTempDir]), and the visual-regression
    orchestrator ([getMismatchedPixelsCount]) together with its helpers
    ([writeDataToFile], [attachImage]).

    JavaScript effects are threaded through an explicit [World]: the file
    system, the OS temp directory, the clock read by [Date.now()], the
    network answering [https.get], the I/O that has been started and not
    yet performed, and a trace of observable events (console output, files
    created and removed, report attachments).  An [async] function is a
    computation whose outcome [Ok v] stands for a promise fulfilled with
    [v] and [Throw e] for a promise rejected with [e]; the world that comes
    with the outcome is the one the caller sees when the promise settles. *)

From Stdlib Require Import ZArith QArith Lia Ascii String.
From stdpp Require Import base option list strings gmap pretty.

Open Scope string_scope.
Open Scope nat_scope.

(** ** JavaScript values the module handles *)

(** Errors, told apart by where they are born: [new Error(msg)] built by
    this module, a [TypeError] raised by the engine (reading a property of
    [undefined], a non-string argument), and the errors Node raises for a
    failed system call or a broken stream, which carry a [code]. *)
Inductive Error :=
  | Error_new (message : string)
  | TypeError (message : string)
  | SystemError (code : string) (message : string).

Definition message (error : Error) : string :=
  match error with
  | Error_new m => m
  | TypeError m => m
  | SystemError code m => code ++ ": " ++ m
  end.

(** A [Buffer] is a sequence of bytes. *)
Abbreviation Buffer := (list Byte.byte).

(** A path of the file system holds a regular file or a directory.  The
    name space is flat: parent directories are not tracked. *)
Inductive Node :=
  | File (content : Buffer)
  | Dir.

(** What the [IncomingMessage] handed to the [https.get] callback offers:
    status code, the [content-type] header ([None] when absent), and the
    body as it will stream: the chunks that arrive, then either the end of
    the stream or an error raised on the response. *)
Record IncomingMessage := {
  statusCode : Z;
  content_type : option string;
  chunks : list Buffer;
  aborted : option (string * string)
}.

(** What becomes of [https.get(url, ...)]: the call itself throws on a
    malformed URL, the request emits ['error'] (DNS, TLS, refused
    connection), or a response arrives. *)
Inductive HttpOutcome :=
  | InvalidURL
  | RequestError (code : string) (msg : string)
  | Response (response : IncomingMessage).

(** Observable events, oldest first in [trace]: a line written by
    [console.error], a file created (or truncated) by opening it for
    writing, a file removed by [unlink], an image attached to the test
    report. *)
Inductive Event :=
  | ConsoleError (msg : string)
  | Created (path : string)
  | Unlinked (path : string)
  | Attached (name : string) (path : string).

(** I/O that the code has started without waiting for it: the removal
    asked of [fs.unlink(path, callback)], and the bytes piped into a write
    stream that has no ['error'] listener.  The call that starts it
    returns at once; the file system changes when the operation lands. *)
Inductive Pending :=
  | PendingUnlink (path : string)
  | PendingStream (path : string) (chunks : list Buffer).

Definition target (op : Pending) : string :=
  match op with
  | PendingUnlink path => path
  | PendingStream path _ => path
  end.

(** - [open_fault path] is the error, if any, with which the system
      refuses to open [path] for writing (a parent directory is missing,
      the directory is not writable);
    - [disk_fault path k] is the error, if any, with which the disk
      refuses the [k]-th chunk written through a stream opened on [path];
    - [settles path] tells whether I/O in flight on [path] is performed
      while the function that started it is suspended on an [await] of
      the test runner: it is when the awaited promise takes turns of the
      event loop, it is not when that promise settles at once;
    - [pending] is the I/O in flight, oldest first. *)
Record World := {
  files : gmap string Node;
  tmpdir : string;
  clock : Z;
  network : string → HttpOutcome;
  open_fault : string → option (string * string);
  disk_fault : string → nat → option (string * string);
  settles : string → bool;
  pending : list Pending;
  trace : list Event
}.

Definition set_files (f : gmap string Node → gmap string Node) (w : World) : World :=
  {| files := f (files w); tmpdir := tmpdir w; clock := clock w;
     network := network w; open_fault := open_fault w; disk_fault := disk_fault w;
     settles := settles w; pending := pending w; trace := trace w |}.

Definition set_pending (f : list Pending → list Pending) (w : World) : World :=
  {| files := files w; tmpdir := tmpdir w; clock := clock w;
     network := network w; open_fault := open_fault w; disk_fault := disk_fault w;
     settles := settles w; pending := f (pending w); trace := trace w |}.

Definition emit (e : Event) (w : World) : World :=
  {| files := files w; tmpdir := tmpdir w; clock := clock w;
     network := network w; open_fault := open_fault w; disk_fault := disk_fault w;
     settles := settles w; pending := pending w; trace := trace w ++ [e] |}.

(** ** Computations *)

(** [Crash e] is an exception nobody can catch: an ['error'] event emitted
    on a stream without a listener.  Node terminates the process, so the
    call in progress never resolves. *)
Inductive Outcome (A : Type) :=
  | Ok (a : A)
  | Throw (error : Error)
  | Crash (error : Error).
Arguments Ok {A} a.
Arguments Throw {A} error.
Arguments Crash {A} error.

Definition M (A : Type) : Type := World → Outcome A * World.

Definition ret {A} (a : A) : M A := λ w, (Ok a, w).

Definition bind {A B} (m : M A) (k : A → M B) : M B := λ w,
  match m w with
  | (Ok a, w') => k a w'
  | (Throw e, w') => (Throw e, w')
  | (Crash e, w') => (Crash e, w')
  end.

Definition throw {A} (error : Error) : M A := λ w, (Throw error, w).

(** [try { body } catch (error) { handler }] *)
Definition try_catch {A} (body : M A) (handler : Error → M A) : M A := λ w,
  match body w with
  | (Throw e, w') => handler e w'
  | r => r
  end.

#[global] Instance M_ret : MRet M := @ret.
#[global] Instance M_bind : MBind M := λ A B k m, bind m k.

(** ** Primitives of the runtime *)

Definition console_error (msg : string) : M unit := λ w,
  (Ok tt, emit (ConsoleError msg) w).

Definition Date_now : M Z := λ w, (Ok (clock w), w).

Definition os_tmpdir : M string := λ w, (Ok (tmpdir w), w).

(** *** [path.join] and [path.normalize], POSIX flavour

    Node splits the joined text at the separators and walks the segments
    with a stack: an empty segment and ["."] are skipped, [".."] removes
    the segment before it, or stays when there is none to remove and the
    path is relative. *)

(** The segments of [s], [cur] being the segment read so far. *)
Fixpoint segments_from (cur : string) (s : string) : list string :=
  match s with
  | EmptyString => [cur]
  | String c rest =>
      if Ascii.eqb c "/" then cur :: segments_from "" rest
      else segments_from (cur ++ String c EmptyString) rest
  end.

(** One step of [normalizeString]; the stack has the last segment first. *)
Definition push_segment (allowAboveRoot : bool) (stack : list string) (seg : string)
    : list string :=
  if String.eqb seg "" || String.eqb seg "." then stack
  else if String.eqb seg ".." then
    match stack with
    | top :: below =>
        if String.eqb top ".." then (if allowAboveRoot then ".." :: stack else stack)
        else below
    | [] => if allowAboveRoot then [".."] else []
    end
  else seg :: stack.

Fixpoint join_segments (segs : list string) : string :=
  match segs with
  | [] => ""
  | [seg] => seg
  | seg :: rest => seg ++ "/" ++ join_segments rest
  end.

Definition starts_with_slash (s : string) : bool :=
  match s with
  | String c _ => Ascii.eqb c "/"
  | EmptyString => false
  end.

Fixpoint ends_with_slash (s : string) : bool :=
  match s with
  | EmptyString => false
  | String c EmptyString => Ascii.eqb c "/"
  | String _ rest => ends_with_slash rest
  end.

Definition path_normalize (path : string) : string :=
  if String.eqb path "" then "."
  else
    let isAbsolute := starts_with_slash path in
    let trailingSeparator := ends_with_slash path in
    let path :=
      join_segments
        (rev (fold_left (push_segment (negb isAbsolute)) (segments_from "" path) [])) in
    if String.eqb path "" then
      (if isAbsolute then "/" else if trailingSeparator then "./" else ".")
    else
      (if isAbsolute then "/" else "") ++ path ++ (if trailingSeparator then "/" else "").

(** [path.join(a, b)] for two strings: the non-empty arguments, joined by
    ["/"], then normalised. *)
Definition posix_join (a b : string) : string :=
  let joined :=
    if String.eqb a "" then b
    else if String.eqb b "" then a
    else a ++ "/" ++ b in
  if String.eqb joined "" then "." else path_normalize joined.

(** [path.join(dir, name)].  A name that is not a string is a
    [TypeError]. *)
Definition path_join (dir : string) (name : option string) : M string :=
  match name with
  | Some n => mret (posix_join dir n)
  | None => throw (TypeError "The path argument must be of type string. Received undefined")
  end.

(** Reading a property of a value that may be [undefined]. *)
Definition prop {A} (o : option A) (key : string) : M A :=
  match o with
  | Some a => mret a
  | None => throw (TypeError ("Cannot read properties of undefined (reading '" ++ key ++ "')"))
  end.


Definition ENOENT (syscall path : string) : Error :=
  SystemError "ENOENT" ("no such file or directory, " ++ syscall ++ " '" ++ path ++ "'").
Definition EISDIR (syscall path : string) : Error :=
  SystemError "EISDIR" ("illegal operation on a directory, " ++ syscall ++ " '" ++ path ++ "'").

(** [fs.unlinkSync]: removes a regular file.  The files the module
    removes are files it was handed or has written in the temp directory;
    a removal refused for lack of permission is not modelled. *)
Definition fs_unlinkSync (path : string) : M unit := λ w,
  match files w !! path with
  | Some (File _) => (Ok tt, emit (Unlinked path) (set_files (delete path) w))
  | Some Dir => (Throw (EISDIR "unlink" path), w)
  | None => (Throw (ENOENT "unlink" path), w)
  end.

(** [fs.readFileSync], and [fs.readFile] once promisified. *)
Definition fs_readFileSync (path : string) : M Buffer := λ w,
  match files w !! path with
  | Some (File content) => (Ok content, w)
  | Some Dir => (Throw (EISDIR "read" path), w)
  | None => (Throw (ENOENT "open" path), w)
  end.

Definition fs_readFile : string → M Buffer := fs_readFileSync.

(** [fs.writeFile] once promisified: creates or replaces a regular file,
    unless the path is a directory or the system refuses to open it. *)
Definition fs_writeFile (path : string) (data : Buffer) : M unit := λ w,
  match files w !! path with
  | Some Dir => (Throw (EISDIR "open" path), w)
  | _ =>
      match open_fault w path with
      | Some (code, msg) => (Throw (SystemError code msg), w)
      | None => (Ok tt, emit (Created path) (set_files <[path := File data]> w))
      end
  end.

(** ** The test framework's objects *)

Record Project := {
  name : string;
  defaultBrowserType : option string   (* project.use.defaultBrowserType *)
}.

(** [testInfo.attach(name, {path, contentType})] belongs to the test
    runner; [attach n p] is [None] when the promise it returns fulfils and
    [Some e] when it rejects with [e].  What the runner does with the file
    happens in its own report directory, outside [files]. *)
Record TestInfo := {
  project : option Project;
  attach : string → string → option Error
}.

Record ContextOptions := { isMobile : option bool }.
Record BrowserContext := { _options : option ContextOptions }.

(** ** Temp-file store *)

(* Create unique file name *)
Definition createUniqueFileName (testInfo : TestInfo) (filename : string) : M (option string) :=
  try_catch
    (timestamp ← Date_now;
     project ← prop (project testInfo) "name";
     let projectName := name project in
     mret (Some (projectName ++ "_" ++ pretty timestamp ++ "_" ++ filename)))
    (λ error,
     console_error ("Error while creating unique file name: " ++ message error);;
     mret None).

(* Get path to the system's temp directory with the temporary file *)
Definition getTempFilePath (fileName : option string) : M (option string) :=
  try_catch
    (tmpDir ← os_tmpdir;
     filePath ← path_join tmpDir fileName;
     mret (Some filePath))
    (λ error,
     console_error ("Error while getting the path to the temporaty file: " ++ message error);;
     mret None).


(* Delete the temporary file *)
Definition deleteTempFile (filePath : string) : M unit :=
  try_catch
    (fs_unlinkSync filePath)
    (λ error,
     console_error ("Error while deleting the file: " ++ message error)).

(* Read the file data into a buffer *)
Definition readFile (filePath : string) : M (option Buffer) :=
  try_catch
    (fileBuffer ← fs_readFile filePath;
     mret (Some fileBuffer))
    (λ error,
     console_error ("Error while reading the file: " ++ message error);;
     mret None).

(* Write data to file *)
Definition writeFile (filePath : string) (data : Buffer) : M unit :=
  try_catch
    (fs_writeFile filePath data)
    (λ error,
     console_error ("Error while writing file: " ++ message error)).

(** ** Write streams *)

(** [fs.createWriteStream(path)] rejects a path that is not a string at
    once; the stream it returns is known by its path.  Opening creates the
    file or truncates it.  In [stream_open], [stream_write] and
    [stream_write_all], [Throw e] is the ['error'] event with which the
    stream breaks; its listeners decide what becomes of it.  Inside the
    [https.get] callback nobody catches a synchronous throw. *)
Definition fs_createWriteStream (path : option string) : M string :=
  match path with
  | Some p => mret p
  | None => throw (TypeError "The path argument must be of type string. Received undefined")
  end.

Definition stream_open (path : string) : M unit := λ w,
  match files w !! path with
  | Some Dir => (Throw (EISDIR "open" path), w)
  | _ =>
      match open_fault w path with
      | Some (code, msg) => (Throw (SystemError code msg), w)
      | None => (Ok tt, emit (Created path) (set_files <[path := File []]> w))
      end
  end.

Definition stream_write (path : string) (k : nat) (chunk : Buffer) : M unit := λ w,
  match disk_fault w path k with
  | Some (code, msg) => (Throw (SystemError code msg), w)
  | None =>
      match files w !! path with
      | Some (File content) => (Ok tt, set_files <[path := File (content ++ chunk)]> w)
      | _ => (Ok tt, w)
      end
  end.

Fixpoint stream_write_all (path : string) (k : nat) (chunks : list Buffer) : M unit :=
  match chunks with
  | [] => mret tt
  | chunk :: rest => stream_write path k chunk;; stream_write_all path (S k) rest
  end.

(** An ['error'] event without a listener terminates the process. *)
Definition unhandled {A} (m : M A) : M A := λ w,
  match m w with
  | (Throw e, w') => (Crash e, w')
  | r => r
  end.

(** Callbacks that run one after the other on the same error, each ending
    in [resolve] or [reject]: the promise keeps the first settlement, the
    later callbacks still have their effects. *)
Definition first_settles {A} (h1 h2 : M A) : M A := λ w,
  let '(r, w1) := h1 w in
  match r with
  | Crash e => (Crash e, w1)
  | _ => (r, (h2 w1).2)
  end.

(** ** I/O in flight *)

(** [fs.unlink(path, () => {})]: the removal is handed to the thread pool
    and the call returns; the callback ignores the outcome. *)
Definition fs_unlink (path : string) : M unit := λ w,
  (Ok tt, set_pending (λ ops, (ops ++ [PendingUnlink path])%list) w).

(** [readable.pipe(fs.createWriteStream(path))]: the stream will open the
    file and write what the readable produces; the call returns before
    any of it happens. *)
Definition pipe (chunks : list Buffer) (path : string) : M unit := λ w,
  (Ok tt, set_pending (λ ops, (ops ++ [PendingStream path chunks])%list) w).

(** An operation lands: the file is removed if it is there, or the stream
    opens the file and writes its chunks, in one go.  The stream has no
    ['error'] listener, so an error on it is uncaught. *)
Definition land (op : Pending) : M unit :=
  match op with
  | PendingUnlink path => try_catch (fs_unlinkSync path) (λ _, mret tt)
  | PendingStream path chunks =>
      unhandled (stream_open path;; stream_write_all path 0 chunks)
  end.

Fixpoint land_all (ops : list Pending) : M unit :=
  match ops with
  | [] => mret tt
  | op :: rest => land op;; land_all rest
  end.

(** Everything in flight lands, oldest first: the state the file system
    reaches once the event loop has nothing left to do. *)
Definition drain : M unit := λ w,
  land_all (pending w) (set_pending (λ _, []) w).

(** What is in flight on [path] lands. *)
Definition land_path (path : string) : M unit := λ w,
  land_all (filter (λ op, target op = path) (pending w))
           (set_pending (filter (λ op, target op ≠ path)) w).

(** [await promise] in a function that has I/O of its own in flight on
    [inflight]: while the function is suspended that I/O lands, if it
    [settles]; then the function resumes with the promise's outcome.
    Operations in flight on other paths are those of earlier calls; they
    stay in [pending], for [drain]. *)
Definition await {A} (inflight : string) (promise : M A) : M A := λ w,
  if settles w inflight then (land_path inflight;; promise) w else promise w.

(** ** Remote image fetcher *)

(** [/^image\//.test(header)]: an absent header is tested as the string
    ["undefined"]. *)
Definition is_image (header : option string) : bool :=
  match header with
  | Some s => String.prefix "image/" s
  | None => false
  end.

(* Cleanup function to delete file and reject promise *)
Definition cleanupAndReject {A} (filePath : string) (error : Error) : M A :=
  fs_unlink filePath;; (* deletes the file if any error occurs *)
  console_error ("Error while deleting file after a previous error: " ++ message error);;
  throw error. (* Promise is rejected *)

(** [pipeline(response, fileStream, callback)]: the body is pumped into
    the file until the response ends or one of the two streams breaks.
    The stream has opened the file by the time the body arrives. *)
Definition pipeline (response : IncomingMessage) (filePath : string) : M unit :=
  stream_open filePath;;
  stream_write_all filePath 0 (chunks response);;
  match aborted response with
  | Some (code, msg) => throw (SystemError code msg)
  | None => mret tt
  end.

(* Download image from url to the system's directory for temporary files *)
Definition downloadImageFromUrlToTempDir (url : string) : M string := λ w,
  match network w url with
  | Response response =>
      (if (statusCode response <? 200)%Z
          || (statusCode response >=? 300)%Z
          || negb (is_image (content_type response))
       then
         throw (Error_new ("Failed to download image from " ++ url ++
                           ", status code: " ++ pretty (statusCode response)))
       else
         filePath ← getTempFilePath (Some "test_picture.jpg");
         filePath ← unhandled (fs_createWriteStream filePath);
         try_catch
           (pipeline response filePath;;
            mret filePath)
           (λ error,
            (* the error is raised on the stream that broke, then on the
               stream [pipeline] destroys with it, then [pipeline] calls
               back: [cleanupAndReject] runs three times *)
            first_settles (cleanupAndReject filePath error)
              (first_settles (cleanupAndReject filePath error)
                             (cleanupAndReject filePath error)))) w
  | RequestError code msg =>
      let error := SystemError code msg in
      (console_error
         ("Error while downloading image from url to the system's directory for temporary files: "
          ++ message error);;
       throw error) w
  | InvalidURL =>
      (* thrown inside the executor: the promise rejects *)
      throw (TypeError "Invalid URL") w
  end.

(** ** Images *)

(** What [PNG.sync.read] returns and [new PNG({width, height})] builds:
    dimensions and RGBA bytes. *)
Record PNG := {
  width : nat;
  height : nat;
  data : list Byte.byte
}.

Definition PNG_new (width height : nat) : PNG :=
  {| width := width; height := height;
     data := repeat Byte.x00 (4 * width * height)%nat |}.

Definition lift {A} (r : Error + A) : M A :=
  match r with
  | inl e => throw e
  | inr a => mret a
  end.

(** [path.basename], for a path that does not end in a separator. *)
Fixpoint basename_from (acc p : string) : string :=
  match p with
  | EmptyString => acc
  | String c rest =>
      if Ascii.eqb c "/"%char then basename_from "" rest
      else basename_from (acc ++ String c EmptyString) rest
  end.
Definition path_basename (p : string) : string := basename_from "" p.

(* Attach image to test report *)
Definition attachImage (testInfo : TestInfo) (imagePath : string) : M unit := λ w,
  let n := path_basename imagePath in
  match attach testInfo n imagePath with
  | None => (Ok tt, emit (Attached n imagePath) w)
  | Some e => (Throw e, w)
  end.

(* Path of the expected Baseline Logo image *)
Definition baseline_Webkit_Mobile : string :=
  "./tests/test-data/baseline-images/baseline_homepage_logo_Webkit_Mobile.png".
Definition baseline_default : string :=
  "./tests/test-data/baseline-images/baseline_homepage_logo.png".

(** [x == 'webkit'] for [x] a string or [undefined]. *)
Definition loose_eq (x : option string) (s : string) : bool :=
  match x with
  | Some x => String.eqb x s
  | None => false
  end.

Definition expectedBaselinePath (defaultBrowserType : option string) (isMobile : bool) : string :=
  if isMobile && loose_eq defaultBrowserType "webkit"
  then baseline_Webkit_Mobile
  else baseline_default.

Section VisualRegression.

(** The image libraries, taken as they come:
    - [PNG_sync_read buf] is [PNG.sync.read(buf)] of pngjs;
    - [sharp_resize_png buf w h] is
      [await sharp(buf).resize(w, h).png().toBuffer()];
    - [PNG_pack img] is the byte stream of [img.pack()];
    - [pixelDiffers threshold img1 img2 w h pos] decides whether
      pixelmatch counts pixel [pos]: its colour distance exceeds the
      threshold and it is not anti-aliasing;
    - [drawDiff threshold img1 img2 w h] is the diff image pixelmatch
      paints. *)
Variable PNG_sync_read : Buffer → Error + PNG.
Variable sharp_resize_png : Buffer → nat → nat → Error + Buffer.
Variable PNG_pack : PNG → Buffer.
Variable pixelDiffers : Q → list Byte.byte → list Byte.byte → nat → nat → nat → bool.
Variable drawDiff : Q → list Byte.byte → list Byte.byte → nat → nat → list Byte.byte.

(** Modelled from the spec: pixelmatch, the pixel comparator, is a
    third-party package whose code is not part of the sources.  The
    specification gives it two equally sized raw images, has it decide
    pixel by pixel whether the colour distance exceeds the threshold, and
    has it return the number of such pixels together with a diff image of
    the same size.  Buffers whose sizes disagree with each other or with
    [width * height * 4] make the comparison fail. *)
Definition pixelmatch (img1 img2 output : list Byte.byte) (width height : nat)
    (threshold : Q) : Error + (nat * list Byte.byte) :=
  if negb (length img1 =? length img2)%nat || negb (length output =? length img1)%nat
  then inl (Error_new "Image sizes do not match.")
  else if negb (length img1 =? width * height * 4)%nat
  then inl (Error_new "Image data size does not match width/height.")
  else inr (length (filter (λ pos, pixelDiffers threshold img1 img2 width height pos = true)
                           (seq 0 (width * height)%nat)),
            drawDiff threshold img1 img2 width height).

(* Write the data into new file via stream *)
Definition writeDataToFile (data : PNG) (fileName : option string) : M string :=
  filePath ← getTempFilePath fileName;
  filePath ← fs_createWriteStream filePath;
  pipe [PNG_pack data] filePath;;
  mret filePath.

(* Resize the screenshot if needed *)
Definition resizeIfNeeded (expectedBaseline actualScreenshotOriginalSize : PNG)
    (actualScreenshotPath : string) : M PNG :=
  if negb (width expectedBaseline =? width actualScreenshotOriginalSize)%nat
     || negb (height expectedBaseline =? height actualScreenshotOriginalSize)%nat
  then
    (* The sizes don't match. Resize the screenshot buffer. *)
    actualScreenshotOriginalBuffer ← fs_readFileSync actualScreenshotPath;
    resizedScreenshotBuffer ←
      lift (sharp_resize_png actualScreenshotOriginalBuffer
              (width expectedBaseline) (height expectedBaseline));
    (* Use resized screenshot buffer *)
    lift (PNG_sync_read resizedScreenshotBuffer)
  else
    (* The sizes match. No need to resize. *)
    mret actualScreenshotOriginalSize.

(* Compare actual screenshot against a baseline screenshot *)
Definition getMismatchedPixelsCount (actualScreenshotPath : string)
    (testInfo : TestInfo) (sharedContext : BrowserContext) : M (option nat) :=
  try_catch
    ((* Get browser type *)
     project ← prop (project testInfo) "use";
     let defaultBrowserType := defaultBrowserType project in
     (* Get device type *)
     options ← prop (_options sharedContext) "isMobile";
     let isMobile := default false (isMobile options) in
     let expectedBaselinePath := expectedBaselinePath defaultBrowserType isMobile in
     (* Convert binaries into Buffers, transform Buffers into pixel data *)
     expectedBuffer ← fs_readFileSync expectedBaselinePath;
     expectedBaseline ← lift (PNG_sync_read expectedBuffer);
     actualBuffer ← fs_readFileSync actualScreenshotPath;
     actualScreenshotOriginalSize ← lift (PNG_sync_read actualBuffer);
     actualScreenshot ←
       resizeIfNeeded expectedBaseline actualScreenshotOriginalSize actualScreenshotPath;
     (* Create mismatchedPixelsDiff PNG object *)
     let width := width expectedBaseline in
     let height := height expectedBaseline in
     let mismatchedPixelsDiff := PNG_new width height in
     (* Compare images *)
     '(mismatchedPixelsCount, diffData) ←
       lift (pixelmatch (data expectedBaseline) (data actualScreenshot)
               (data mismatchedPixelsDiff) width height (19 # 100)%Q);
     let mismatchedPixelsDiff := {| width := width; height := height; data := diffData |} in
     (if (0 <? mismatchedPixelsCount)%nat then
        diffImageName ←
          createUniqueFileName testInfo "difference_between_basaline_and_actual_screenshot.png";
        diffImagePath ← writeDataToFile mismatchedPixelsDiff diffImageName;
        (* Attach images to test report *)
        await diffImagePath (attachImage testInfo expectedBaselinePath);;
        await diffImagePath (attachImage testInfo actualScreenshotPath);;
        await diffImagePath (attachImage testInfo diffImagePath);;
        (* Delete the temporary files *)
        deleteTempFile diffImagePath
      else mret tt);;
     (* Delete the temporary files *)
     deleteTempFile actualScreenshotPath;;
     mret (Some mismatchedPixelsCount))
    (λ error,
     console_error ("Error while comparing actual screenshot against a baseline screenshot: "
                    ++ message error);;
     mret None).

End VisualRegression.

(** ** Vocabulary of the properties *)

(** A regular file exists at [path]. *)
Definition is_file (w : World) (path : string) : Prop :=
  ∃ content, files w !! path = Some (File content).

(** What the validation in the [https.get] callback rejects. *)
Definition invalid_response (response : IncomingMessage) : Prop :=
  (statusCode response < 200)%Z ∨ (300 ≤ statusCode response)%Z
  ∨ is_image (content_type response) = false.

(** The validation as the specification words it: the status code is in
    [200, 300) and the content type matches [image/*], which is to say
    that the header is there and begins with [image/]. *)
Definition acceptable_response (response : IncomingMessage) : Prop :=
  (200 ≤ statusCode response)%Z ∧ (statusCode response < 300)%Z
  ∧ ∃ subtype, content_type response = Some ("image/" ++ subtype).

(** A name without a separator, and a name made of dots only (the empty
    name, ["."], [".."], ...). *)
Fixpoint slash_free (s : string) : bool :=
  match s with
  | EmptyString => true
  | String c rest => negb (Ascii.eqb c "/") && slash_free rest
  end.

Fixpoint only_dots (s : string) : bool :=
  match s with
  | EmptyString => true
  | String c rest => Ascii.eqb c "." && only_dots rest
  end.

(** The paths of the files a trace creates, in order. *)
Definition created_files (events : list Event) : list string :=
  omap (λ e, match e with Created path => Some path | _ => None end) events.

(** The paths of the files a trace removes, in order. *)
Definition removed_files (events : list Event) : list string :=
  omap (λ e, match e with Unlinked path => Some path | _ => None end) events.

(** What the orchestrator relies on from pngjs: a decoded image has
    positive dimensions and four bytes per pixel. *)
Definition decodes_well_formed (read : Buffer → Error + PNG) : Prop :=
  ∀ buf img, read buf = inr img →
    0 < width img ∧ 0 < height img ∧ length (data img) = width img * height img * 4.

(** What it relies on from sharp: resizing a decodable image to positive
    dimensions yields a PNG of exactly these dimensions. *)
Definition resizes_exactly (read : Buffer → Error + PNG)
    (resize : Buffer → nat → nat → Error + Buffer) : Prop :=
  ∀ buf img w h, read buf = inr img → 0 < w → 0 < h →
    ∃ out img', resize buf w h = inr out ∧ read out = inr img'
                ∧ width img' = w ∧ height img' = h.

(** ** A reference instance of the image libraries

    An uncompressed stand-in for the PNG container, used to run the
    orchestrator on concrete worlds: [width] bytes [x01], a byte [x00],
    [height] bytes [x01], a byte [x00], then the RGBA data. *)

#[global] Instance byte_eq_dec : EqDecision Byte.byte := Byte.byte_eq_dec.

Fixpoint take_ones (buf : Buffer) : nat * Buffer :=
  match buf with
  | b :: rest =>
      if decide (b = Byte.x01) then let '(n, tl) := take_ones rest in (S n, tl)
      else (0, buf)
  | [] => (0, buf)
  end.

Definition take_zero (buf : Buffer) : option Buffer :=
  match buf with
  | b :: rest => if decide (b = Byte.x00) then Some rest else None
  | [] => None
  end.

Definition raw_encode (img : PNG) : Buffer :=
  repeat Byte.x01 (width img) ++ Byte.x00 ::
  repeat Byte.x01 (height img) ++ Byte.x00 :: data img.

Definition raw_decode (buf : Buffer) : Error + PNG :=
  let '(w, rest) := take_ones buf in
  match take_zero rest with
  | Some rest =>
      let '(h, rest) := take_ones rest in
      match take_zero rest with
      | Some pixels =>
          if (0 <? w) && (0 <? h) && (length pixels =? w * h * 4)
          then inr {| width := w; height := h; data := pixels |}
          else inl (Error_new "Invalid image dimensions")
      | None => inl (Error_new "Invalid file signature")
      end
  | None => inl (Error_new "Invalid file signature")
  end.

(** Resizing keeps the container and yields an image of the requested
    dimensions (blank: the pixel values play no role here). *)
Definition raw_resize (buf : Buffer) (w h : nat) : Error + Buffer :=
  match raw_decode buf with
  | inl e => inl e
  | inr _ =>
      if (0 <? w)%nat && (0 <? h)%nat
      then inr (raw_encode (PNG_new w h))
      else inl (Error_new "Expected positive integer for width and height")
  end.

(** Two pixels differ when their four bytes do. *)
Definition raw_differs (_ : Q) (img1 img2 : Buffer) (_ _ : nat) (pos : nat) : bool :=
  negb (bool_decide (take 4 (drop (4 * pos) img1) = take 4 (drop (4 * pos) img2))).

Definition raw_diff (_ : Q) (img1 img2 : Buffer) (w h : nat) : Buffer :=
  repeat Byte.xff (4 * w * h).

(** The orchestrator over the reference instance. *)
Definition raw_compare : string → TestInfo → BrowserContext → M (option nat) :=
  getMismatchedPixelsCount raw_decode raw_resize raw_encode raw_differs raw_diff.

(** ** Reference worlds *)

Definition white : Buffer := [Byte.xff; Byte.xff; Byte.xff; Byte.xff].
Definition black : Buffer := [Byte.x00; Byte.x00; Byte.x00; Byte.xff].

(** A 2x1 baseline, a matching screenshot, a screenshot with one pixel
    off, a 1x1 screenshot, and a file that is no image at all. *)
Definition logo : PNG := {| width := 2; height := 1; data := white ++ black |}.
Definition logo_off : PNG := {| width := 2; height := 1; data := white ++ white |}.
Definition logo_small : PNG := {| width := 1; height := 1; data := white |}.
Definition jpeg_bytes : Buffer := [Byte.xff; Byte.xd8; Byte.xff; Byte.xe0].

Definition image_response : IncomingMessage :=
  {| statusCode := 200; content_type := Some "image/jpeg";
     chunks := [[Byte.xff; Byte.xd8]; [Byte.xff; Byte.xe0]]; aborted := None |}.
Definition broken_response : IncomingMessage :=
  {| statusCode := 200; content_type := Some "image/jpeg";
     chunks := [[Byte.xff; Byte.xd8]]; aborted := Some ("ECONNRESET", "aborted") |}.
Definition not_found_response : IncomingMessage :=
  {| statusCode := 404; content_type := Some "text/html";
     chunks := []; aborted := None |}.
Definition html_response : IncomingMessage :=
  {| statusCode := 200; content_type := Some "text/html";
     chunks := [[Byte.x3c; Byte.x68; Byte.x31; Byte.x3e]]; aborted := None |}.

Definition demo_network (url : string) : HttpOutcome :=
  if String.eqb url "https://example.test/logo.jpg" then Response image_response
  else if String.eqb url "https://example.test/other.jpg" then Response image_response
  else if String.eqb url "https://example.test/broken.jpg" then Response broken_response
  else if String.eqb url "https://example.test/missing" then Response not_found_response
  else if String.eqb url "https://example.test/page.html" then Response html_response
  else if String.eqb url "" then InvalidURL
  else RequestError "ENOTFOUND" "getaddrinfo ENOTFOUND".

(** Nothing is in flight, the disk takes everything, and the promises of
    the test runner take long enough for I/O in flight to land. *)
Definition demo_world : World :=
  {| files :=
       <[baseline_default := File (raw_encode logo)]>
       (<["/tmp/match.png" := File (raw_encode logo)]>
       (<["/tmp/off.png" := File (raw_encode logo_off)]>
       (<["/tmp/small.png" := File (raw_encode logo_small)]>
       (<["/tmp/test_picture.jpg" := File jpeg_bytes]>
       (<["/tmp/reports" := Dir]> ∅)))));
     tmpdir := "/tmp";
     clock := 1700000000000;
     network := demo_network;
     open_fault := λ _, None;
     disk_fault := λ _ _, None;
     settles := λ _, true;
     pending := [];
     trace := [] |}.

Definition later (w : World) : World :=
  {| files := files w; tmpdir := tmpdir w; clock := clock w + 1;
     network := network w; open_fault := open_fault w; disk_fault := disk_fault w;
     settles := settles w; pending := pending w; trace := trace w |}.

(** The same world with a test runner whose promises settle at once. *)
Definition at_once (w : World) : World :=
  {| files := files w; tmpdir := tmpdir w; clock := clock w;
     network := network w; open_fault := open_fault w; disk_fault := disk_fault w;
     settles := λ _, false; pending := pending w; trace := trace w |}.

Definition demo_testInfo : TestInfo :=
  {| project := Some {| name := "chromium"; defaultBrowserType := Some "chromium" |};
     attach := λ _ _, None |}.

(** A test whose report cannot take attachments. *)
Definition failing_attach_testInfo : TestInfo :=
  {| project := Some {| name := "chromium"; defaultBrowserType := Some "chromium" |};
     attach := λ _ _, Some (SystemError "ENOSPC" "no space left on device, copyfile") |}.

Definition demo_context : BrowserContext :=
  {| _options := Some {| isMobile := None |} |}.

(** Where the diff image of [demo_testInfo] goes in [demo_world], and what
    it holds for a 2x1 baseline. *)
Definition demo_diff_path : string :=
  "/tmp/chromium_1700000000000_difference_between_basaline_and_actual_screenshot.png".
Definition demo_diff : PNG :=
  {| width := 2; height := 1; data := repeat Byte.xff 8 |}.

(** ** Vocabulary of the further properties *)

(** [w'] differs from [w] at most in its trace, in what the paths of
    [changed] hold and in the I/O in flight on them; and no path has
    become a directory. *)
Definition same_but (changed : list string) (w w' : World) : Prop :=
  tmpdir w' = tmpdir w ∧ clock w' = clock w
  ∧ (∀ q, q ∉ changed → files w' !! q = files w !! q)
  ∧ (∀ q, q ∉ changed →
          filter (λ op, target op = q) (pending w')
          = filter (λ op, target op = q) (pending w))
  ∧ (∀ q, files w' !! q = Some Dir → files w !! q = Some Dir).

(** [post] holds of the outcome and of the world in which [m] ends. *)
Definition wp {A} (m : M A) (post : Outcome A → World → Prop) (w : World) : Prop :=
  post (m w).1 (m w).2.

(** ** Unfolding computations *)

Ltac run :=
  unfold mbind, M_bind, mret, M_ret, bind, ret, throw, try_catch, unhandled,
    lift, prop, console_error, Date_now, os_tmpdir, path_join; simpl.

(** * Properties *)

(** ** Strings *)

Lemma string_length_app (s t : string) :
  String.length (s ++ t) = (String.length s + String.length t)%nat.
Proof. induction s as [|c s IH]; simpl; [reflexivity | now rewrite IH]. Qed.

Lemma string_app_assoc (s t u : string) : (s ++ t) ++ u = s ++ t ++ u.
Proof.
  induction s as [|c s IH]; [reflexivity|].
  change (String c ((s ++ t) ++ u) = String c (s ++ t ++ u)). now rewrite IH.
Qed.

Lemma string_app_nil_r (s : string) : s ++ "" = s.
Proof.
  induction s as [|c s IH]; [reflexivity|].
  change (String c (s ++ "") = String c s). now rewrite IH.
Qed.

(** Appending the same suffix is injective. *)
Lemma string_app_inv_tail (s1 s2 t : string) : s1 ++ t = s2 ++ t → s1 = s2.
Proof.
  revert s2; induction s1 as [|c s1 IH]; intros [|d s2] H.
  - reflexivity.
  - apply (f_equal String.length) in H.
    rewrite !string_length_app in H; simpl in H; lia.
  - apply (f_equal String.length) in H.
    rewrite !string_length_app in H; simpl in H; lia.
  - change (String c (s1 ++ t) = String d (s2 ++ t)) in H.
    injection H as -> H. f_equal. now apply IH.
Qed.


Lemma string_eqb_app_nonempty (s t : string) : t ≠ "" → String.eqb (s ++ t) "" = false.
Proof.
  intros Ht. apply String.eqb_neq. intros E.
  apply (f_equal String.length) in E. rewrite string_length_app in E.
  destruct t; [congruence | simpl in E; lia].
Qed.

(** The name built by [createUniqueFileName] determines the timestamp once
    the project name and the logical name are fixed. *)
Lemma unique_name_inj (projectName filename : string) (t1 t2 : Z) :
  projectName ++ "_" ++ pretty t1 ++ "_" ++ filename
  = projectName ++ "_" ++ pretty t2 ++ "_" ++ filename →
  t1 = t2.
Proof.
  intros H.
  apply (inj (String.app projectName)) in H.
  apply (inj (String.app "_")) in H.
  apply string_app_inv_tail in H.
  now apply (inj pretty) in H.
Qed.

(** ** Paths *)

Lemma slash_free_app (s t : string) :
  slash_free (s ++ t) = slash_free s && slash_free t.
Proof.
  induction s as [|c s IH]; [reflexivity|].
  change (String c s ++ t) with (String c (s ++ t)). simpl.
  rewrite IH. now rewrite andb_assoc.
Qed.

Lemma only_dots_app (s t : string) :
  only_dots (s ++ t) = only_dots s && only_dots t.
Proof.
  induction s as [|c s IH]; [reflexivity|].
  change (String c s ++ t) with (String c (s ++ t)). simpl.
  rewrite IH. now rewrite andb_assoc.
Qed.

Lemma only_dots_nonempty (t : string) : only_dots t = false → t ≠ "".
Proof. now intros H ->. Qed.

(** Decimal numerals contain no separator. *)
Lemma pretty_N_go_slash_free (x : N) :
  ∀ s, slash_free s = true → slash_free (pretty_N_go x s) = true.
Proof.
  induction (N.lt_wf_0 x) as [x _ IH]; intros s Hs.
  assert (x = 0 ∨ 0 < x)%N as [->|Hx] by lia.
  - now rewrite pretty_N_go_0.
  - rewrite pretty_N_go_step by assumption. apply IH.
    + now apply N.div_lt.
    + simpl. rewrite Hs. unfold pretty_N_char. now repeat case_match.
Qed.

Lemma pretty_Z_slash_free (z : Z) : slash_free (pretty z) = true.
Proof.
  assert (HN : ∀ n : N, slash_free (pretty n) = true).
  { intros n. unfold pretty, pretty_N. case_decide; [reflexivity|].
    now apply pretty_N_go_slash_free. }
  destruct z as [|p|p]; [reflexivity | apply HN |].
  unfold pretty, pretty_Z. rewrite slash_free_app. simpl. apply HN.
Qed.

(** A segment that is not made of dots only is kept as it is. *)
Lemma push_segment_plain (allow : bool) (stack : list string) (seg : string) :
  only_dots seg = false → push_segment allow stack seg = seg :: stack.
Proof.
  intros H. unfold push_segment.
  destruct (String.eqb seg "") eqn:E1; [apply String.eqb_eq in E1; subst; discriminate|].
  destruct (String.eqb seg ".") eqn:E2; [apply String.eqb_eq in E2; subst; discriminate|].
  destruct (String.eqb seg "..") eqn:E3; [apply String.eqb_eq in E3; subst; discriminate|].
  reflexivity.
Qed.

(** Text without a separator that follows a path goes to its last
    segment. *)
Lemma segments_from_app (path : string) :
  ∀ cur, ∃ init lst,
    segments_from cur path = (init ++ [lst])%list
    ∧ ∀ tail, slash_free tail = true →
        segments_from cur (path ++ tail) = (init ++ [(lst ++ tail)%string])%list.
Proof.
  induction path as [|c path IH]; intros cur.
  - exists [], cur. split; [reflexivity|].
    intros tail. revert cur. induction tail as [|d tail IHt]; intros cur Hsf.
    + simpl. now rewrite string_app_nil_r.
    + simpl in Hsf. apply andb_true_iff in Hsf as [Hd Hsf].
      apply negb_true_iff in Hd.
      change ("" ++ String d tail) with (String d tail). simpl. rewrite Hd.
      change ("" ++ tail) with tail in IHt.
      rewrite IHt by assumption. simpl.
      now rewrite string_app_assoc.
  - destruct (Ascii.eqb c "/") eqn:Ec.
    + destruct (IH "") as (init & lst & E & H).
      exists (cur :: init), lst. split; [simpl; now rewrite Ec, E|].
      intros tail Hsf. change (String c path ++ tail) with (String c (path ++ tail)).
      simpl. now rewrite Ec, H.
    + destruct (IH (cur ++ String c "")) as (init & lst & E & H).
      exists init, lst. split; [simpl; now rewrite Ec|].
      intros tail Hsf. change (String c path ++ tail) with (String c (path ++ tail)).
      simpl. rewrite Ec. now apply H.
Qed.

Lemma join_segments_snoc (segs : list string) (seg : string) :
  ∃ pre, ∀ tail, join_segments (segs ++ [(seg ++ tail)%string]) = pre ++ seg ++ tail.
Proof.
  induction segs as [|s segs [pre IH]].
  - exists "". reflexivity.
  - exists (s ++ "/" ++ pre). intros tail. simpl.
    destruct (segs ++ [(seg ++ tail)%string])%list eqn:E.
    + now destruct segs.
    + rewrite <- E, IH. now rewrite !string_app_assoc.
Qed.

Lemma starts_with_slash_free (t : string) :
  slash_free t = true → starts_with_slash t = false.
Proof.
  destruct t as [|c t]; [reflexivity|]. simpl.
  intros H. apply andb_true_iff in H as [Hc _]. now apply negb_true_iff in Hc.
Qed.

Lemma ends_with_slash_app (s t : string) :
  t ≠ "" → ends_with_slash (s ++ t) = ends_with_slash t.
Proof.
  intros Ht. induction s as [|c s IH]; [reflexivity|].
  change (String c s ++ t) with (String c (s ++ t)). simpl.
  destruct (s ++ t) eqn:E; [|exact IH].
  destruct s; [now destruct t | discriminate].
Qed.

Lemma ends_with_slash_free (t : string) : slash_free t = true → ends_with_slash t = false.
Proof.
  induction t as [|c t IH]; [reflexivity|]. simpl.
  intros H. apply andb_true_iff in H as [Hc Ht]. apply negb_true_iff in Hc.
  destruct t; [exact Hc | now apply IH].
Qed.

(** Normalising a path that ends in a plain segment keeps the text of
    that segment's end. *)
Lemma path_normalize_app (path : string) :
  ∃ pre, ∀ tail, slash_free tail = true → only_dots tail = false →
    path_normalize (path ++ tail) = pre ++ tail.
Proof.
  destruct (segments_from_app path "") as (init & lst & _ & Hseg).
  set (isAbsolute := starts_with_slash path).
  destruct (join_segments_snoc
              (rev (fold_left (push_segment (negb isAbsolute)) init [])) lst)
    as [pre Hjoin].
  exists ((if isAbsolute then "/" else "") ++ pre ++ lst).
  intros tail Hsf Hd.
  pose proof (only_dots_nonempty _ Hd) as Hne.
  assert (Habs : starts_with_slash (path ++ tail) = isAbsolute).
  { unfold isAbsolute. destruct path; [now apply starts_with_slash_free | reflexivity]. }
  unfold path_normalize.
  rewrite string_eqb_app_nonempty by assumption.
  rewrite Habs, ends_with_slash_app, ends_with_slash_free by assumption.
  rewrite Hseg, fold_left_app by assumption. simpl fold_left.
  rewrite push_segment_plain
    by (rewrite only_dots_app, Hd; apply andb_false_r).
  simpl rev. rewrite Hjoin.
  replace (pre ++ lst ++ tail) with ((pre ++ lst) ++ tail)
    by apply string_app_assoc.
  rewrite string_eqb_app_nonempty by assumption.
  rewrite string_app_nil_r, !string_app_assoc. reflexivity.
Qed.

(** [path.join] keeps the end of a name that ends in a plain segment: what
    precedes it depends on the directory and on the rest of the name
    only. *)
Lemma posix_join_app (dir name : string) :
  ∃ pre, ∀ tail, slash_free tail = true → only_dots tail = false →
    posix_join dir (name ++ tail) = pre ++ tail.
Proof.
  destruct (path_normalize_app (if String.eqb dir "" then name else dir ++ "/" ++ name))
    as [pre Hpre].
  exists pre. intros tail Hsf Hd.
  pose proof (only_dots_nonempty _ Hd) as Hne.
  rewrite <- Hpre by assumption. unfold posix_join.
  destruct (String.eqb dir "") eqn:Edir.
  - now rewrite string_eqb_app_nonempty by assumption.
  - rewrite string_eqb_app_nonempty by assumption.
    replace (dir ++ "/" ++ name ++ tail) with ((dir ++ "/" ++ name) ++ tail)
      by (now rewrite !string_app_assoc).
    now rewrite string_eqb_app_nonempty by assumption.
Qed.

(** Once the directory, the project name and a logical name without a
    separator are fixed, the temp path determines the timestamp. *)
Lemma unique_path_inj (dir projectName logical : string) (t1 t2 : Z) :
  slash_free logical = true →
  posix_join dir (projectName ++ "_" ++ pretty t1 ++ "_" ++ logical)
  = posix_join dir (projectName ++ "_" ++ pretty t2 ++ "_" ++ logical) →
  t1 = t2.
Proof.
  intros Hl H.
  destruct (posix_join_app dir projectName) as [pre Hpre].
  assert (Htail : ∀ t : Z, slash_free ("_" ++ pretty t ++ "_" ++ logical) = true).
  { intros t. rewrite !slash_free_app, pretty_Z_slash_free, Hl. reflexivity. }
  rewrite !Hpre in H by (apply Htail || reflexivity).
  apply (inj (String.app pre)) in H.
  apply (inj (String.app "_")) in H.
  apply string_app_inv_tail in H.
  now apply (inj pretty) in H.
Qed.

(** A logical name with a separator can undo the timestamp. *)
Example separator_in_logical_name :
  posix_join "/tmp" ("chromium" ++ "_" ++ pretty 1700000000000%Z ++ "_" ++ "/../y.png")
  = posix_join "/tmp" ("chromium" ++ "_" ++ pretty 1700000000001%Z ++ "_" ++ "/../y.png").
Proof. vm_compute. reflexivity. Qed.


(** ** The temp-file store *)

Lemma createUniqueFileName_some (testInfo : TestInfo) (p : Project) (filename : string)
    (w : World) :
  project testInfo = Some p →
  createUniqueFileName testInfo filename w
  = (Ok (Some (name p ++ "_" ++ pretty (clock w) ++ "_" ++ filename)), w).
Proof. intros Hp. unfold createUniqueFileName. run. now rewrite Hp. Qed.

Lemma createUniqueFileName_none (testInfo : TestInfo) (filename : string) (w : World) :
  project testInfo = None →
  ∃ msg, createUniqueFileName testInfo filename w = (Ok None, emit (ConsoleError msg) w).
Proof. intros Hp. unfold createUniqueFileName. run. rewrite Hp. simpl. eauto. Qed.

Lemma getTempFilePath_some (fileName : string) (w : World) :
  getTempFilePath (Some fileName) w = (Ok (Some (posix_join (tmpdir w) fileName)), w).
Proof. reflexivity. Qed.

(** C9. [createUniqueFileName] returns the project name, the millisecond
    timestamp read from the clock and the caller's logical name, joined by
    underscores; and for a fixed test identity and logical name, two calls
    that observe different timestamps never return the same name. *)
Theorem createUniqueFileName_timestamps_never_collide
    (testInfo : TestInfo) (p : Project) (filename : string) (w1 w2 : World) :
  project testInfo = Some p →
  clock w1 ≠ clock w2 →
  (createUniqueFileName testInfo filename w1).1
    = Ok (Some (name p ++ "_" ++ pretty (clock w1) ++ "_" ++ filename))
  ∧ (createUniqueFileName testInfo filename w2).1
    = Ok (Some (name p ++ "_" ++ pretty (clock w2) ++ "_" ++ filename))
  ∧ (createUniqueFileName testInfo filename w1).1
    ≠ (createUniqueFileName testInfo filename w2).1.
Proof.
  intros Hp Hclock.
  rewrite !(createUniqueFileName_some _ p) by assumption. simpl.
  split; [reflexivity | split; [reflexivity |]].
  intros H. injection H as H. now apply unique_name_inj in H.
Qed.

(** ** Reading and writing files *)

Lemma fs_readFile_outcome (filePath : string) (w : World) :
  (∃ content, fs_readFile filePath w = (Ok content, w))
  ∨ (∃ error, fs_readFile filePath w = (Throw error, w)).
Proof.
  unfold fs_readFile, fs_readFileSync.
  destruct (files w !! filePath) as [[content|]|]; eauto.
Qed.

Lemma fs_writeFile_outcome (filePath : string) (data : Buffer) (w : World) :
  fs_writeFile filePath data w
  = (Ok tt, emit (Created filePath) (set_files <[filePath := File data]> w))
  ∨ (∃ error, fs_writeFile filePath data w = (Throw error, w)).
Proof.
  unfold fs_writeFile.
  destruct (files w !! filePath) as [[content|]|];
    destruct (open_fault w filePath) as [[code msg]|]; eauto.
Qed.

(** C2, as the code has it. [readFile] and [writeFile] log the underlying
    I/O error on the console and then fulfil their promise with
    [undefined]: whenever the file-system call fails they return normally,
    and for no path and no buffer does the returned promise reject. *)
Theorem readFile_writeFile_log_and_swallow (filePath : string) (data : Buffer) (w : World) :
  (∀ error w', fs_readFile filePath w = (Throw error, w') →
     readFile filePath w
     = (Ok None, emit (ConsoleError ("Error while reading the file: " ++ message error)) w'))
  ∧ (∀ error w', fs_writeFile filePath data w = (Throw error, w') →
     writeFile filePath data w
     = (Ok tt, emit (ConsoleError ("Error while writing file: " ++ message error)) w'))
  ∧ (∀ error, (readFile filePath w).1 ≠ Throw error)
  ∧ (∀ error, (writeFile filePath data w).1 ≠ Throw error).
Proof.
  repeat split.
  - intros error w' H. unfold readFile. run. now rewrite H.
  - intros error w' H. unfold writeFile. run. now rewrite H.
  - intros error. unfold readFile. run.
    destruct (fs_readFile_outcome filePath w) as [[c ->]|[e ->]]; discriminate.
  - intros error. unfold writeFile. run.
    destruct (fs_writeFile_outcome filePath data w) as [->|[e ->]]; discriminate.
Qed.

(** C2, as the specification words it, fails: reading a path that does not
    exist and writing onto a directory both fail in the file system, yet
    neither promise rejects with that error. *)
Lemma readFile_writeFile_do_not_surface_errors :
  (fs_readFile "/tmp/none.png" demo_world).1 = Throw (ENOENT "open" "/tmp/none.png")
  ∧ (readFile "/tmp/none.png" demo_world).1 = Ok None
  ∧ (fs_writeFile "/tmp/reports" jpeg_bytes demo_world).1 = Throw (EISDIR "open" "/tmp/reports")
  ∧ (writeFile "/tmp/reports" jpeg_bytes demo_world).1 = Ok tt.
Proof. vm_compute. repeat split. Qed.

(** ** Baseline selection *)

Lemma loose_eq_true (x : option string) (s : string) :
  loose_eq x s = true ↔ x = Some s.
Proof.
  destruct x as [x|]; simpl.
  - rewrite String.eqb_eq. split; congruence.
  - split; discriminate.
Qed.

(** C8. The baseline path is a function of the pair (browser engine,
    mobile flag) with exactly two values: the webkit-mobile baseline for a
    mobile context on webkit, and the default baseline for every other
    pair. *)
Theorem expectedBaselinePath_two_outcomes (defaultBrowserType : option string)
    (isMobile : bool) :
  (expectedBaselinePath defaultBrowserType isMobile = baseline_Webkit_Mobile
   ↔ isMobile = true ∧ defaultBrowserType = Some "webkit")
  ∧ (expectedBaselinePath defaultBrowserType isMobile = baseline_default
   ↔ ¬ (isMobile = true ∧ defaultBrowserType = Some "webkit"))
  ∧ baseline_Webkit_Mobile ≠ baseline_default.
Proof.
  assert (Hne : baseline_Webkit_Mobile ≠ baseline_default) by discriminate.
  unfold expectedBaselinePath.
  destruct isMobile; simpl.
  - destruct (loose_eq defaultBrowserType "webkit") eqn:E.
    + apply loose_eq_true in E. intuition congruence.
    + assert (defaultBrowserType ≠ Some "webkit")
        by (intros H; apply loose_eq_true in H; congruence).
      intuition congruence.
  - intuition congruence.
Qed.

(** ** Stepping through computations *)

Lemma wp_bind {A B} (m : M A) (k : A → M B) (post : Outcome B → World → Prop) (w : World) :
  wp m (λ r w', match r with
                | Ok a => wp (k a) post w'
                | Throw e => post (Throw e) w'
                | Crash e => post (Crash e) w'
                end) w →
  wp (m ≫= k) post w.
Proof.
  unfold wp, mbind, M_bind, bind. destruct (m w) as [[a|e|e] w']; auto.
Qed.

Lemma wp_try_catch {A} (body : M A) (handler : Error → M A)
    (post : Outcome A → World → Prop) (w : World) :
  wp body (λ r w', match r with
                   | Throw e => wp (handler e) post w'
                   | _ => post r w'
                   end) w →
  wp (try_catch body handler) post w.
Proof.
  unfold wp, try_catch. destruct (body w) as [[a|e|e] w']; auto.
Qed.

Lemma wp_unhandled {A} (m : M A) (post : Outcome A → World → Prop) (w : World) :
  wp m (λ r w', match r with
                | Throw e => post (Crash e) w'
                | _ => post r w'
                end) w →
  wp (unhandled m) post w.
Proof.
  unfold wp, unhandled. destruct (m w) as [[a|e|e] w']; auto.
Qed.

Lemma same_but_refl (changed : list string) (w : World) : same_but changed w w.
Proof. repeat split; auto. Qed.

Lemma same_but_trans (changed : list string) (w1 w2 w3 : World) :
  same_but changed w1 w2 → same_but changed w2 w3 → same_but changed w1 w3.
Proof.
  intros (Ht & Hc & Hf & Hp & Hd) (Ht' & Hc' & Hf' & Hp' & Hd').
  repeat split; [congruence..| | |auto].
  - intros q Hq. rewrite Hf', Hf by assumption. reflexivity.
  - intros q Hq. rewrite Hp', Hp by assumption. reflexivity.
Qed.

Lemma same_but_emit (changed : list string) (w w' : World) (e : Event) :
  same_but changed w w' → same_but changed w (emit e w').
Proof. intros (Ht & Hc & Hf & Hp & Hd). repeat split; assumption. Qed.

Lemma same_but_weaken (D D' : list string) (w w' : World) :
  (∀ q, q ∈ D → q ∈ D') → same_but D w w' → same_but D' w w'.
Proof. intros Hsub (Ht & Hc & Hf & Hp & Hd). repeat split; auto. Qed.

(** Writing a regular file at a path that may change. *)
Lemma same_but_insert (changed : list string) (w : World) (path : string) (content : Buffer) :
  path ∈ changed → same_but changed w (set_files <[path := File content]> w).
Proof.
  intros Hin. repeat split; simpl.
  - intros q Hq. apply lookup_insert_ne. now intros <-.
  - intros q. destruct (decide (path = q)) as [->|Hne].
    + rewrite lookup_insert_eq. discriminate.
    + now rewrite lookup_insert_ne.
Qed.

(** Removing what is at a path that may change. *)
Lemma same_but_delete (changed : list string) (w : World) (path : string) :
  path ∈ changed → same_but changed w (set_files (delete path) w).
Proof.
  intros Hin. repeat split; simpl.
  - intros q Hq. apply lookup_delete_ne. now intros <-.
  - intros q. destruct (decide (path = q)) as [->|Hne].
    + rewrite lookup_delete_eq. discriminate.
    + now rewrite lookup_delete_ne.
Qed.

(** Starting I/O on a path that may change. *)
Lemma same_but_enqueue (changed : list string) (w : World) (op : Pending) :
  target op ∈ changed → same_but changed w (set_pending (λ ops, (ops ++ [op])%list) w).
Proof.
  intros Hin. repeat split; simpl; [|auto].
  intros q Hq. rewrite filter_app, filter_cons_False, filter_nil, app_nil_r; [reflexivity|].
  now intros <-.
Qed.

(** Taking what is in flight on a path that may change out of the queue. *)
Lemma same_but_dequeue (changed : list string) (w : World) (path : string) :
  path ∈ changed →
  same_but changed w (set_pending (filter (λ op, target op ≠ path)) w).
Proof.
  intros Hin. repeat split; simpl; [|auto].
  intros q Hq. rewrite list_filter_filter. apply list_filter_iff.
  intros op. split; [now intros [? ?]|]. intros <-. split; [reflexivity|].
  now intros <-.
Qed.

(** ** The remote image fetcher *)

Lemma invalid_response_test (response : IncomingMessage) :
  (statusCode response <? 200)%Z || (statusCode response >=? 300)%Z
    || negb (is_image (content_type response)) = true
  ↔ invalid_response response.
Proof.
  unfold invalid_response.
  rewrite !orb_true_iff, Z.ltb_lt, Z.geb_le, negb_true_iff. tauto.
Qed.

Lemma prefix_app (p s : string) :
  String.prefix p s = true ↔ ∃ rest, s = p ++ rest.
Proof.
  revert s; induction p as [|a p IH]; intros s.
  - split; [intros _; now exists s | now destruct s].
  - destruct s as [|b s]; cbn.
    + split; [discriminate | intros [rest [=]]].
    + destruct (Ascii.ascii_dec a b) as [->|Hab].
      * rewrite IH. split; intros [rest H]; exists rest.
        -- now rewrite H.
        -- now injection H.
      * split; [discriminate | intros [rest H]]. injection H as H _. congruence.
Qed.

Lemma is_image_true (header : option string) :
  is_image header = true ↔ ∃ subtype, header = Some ("image/" ++ subtype).
Proof.
  destruct header as [s|]; simpl.
  - rewrite prefix_app. split; intros [r H]; exists r; congruence.
  - split; [discriminate | intros [? [=]]].
Qed.

(** The test of the code rejects exactly the responses that the
    specification does not accept. *)
Lemma acceptable_response_iff (response : IncomingMessage) :
  acceptable_response response ↔ ¬ invalid_response response.
Proof.
  unfold acceptable_response, invalid_response. rewrite <- is_image_true.
  destruct (is_image (content_type response)); split.
  - intros (H1 & H2 & _) [H|[H|H]]; [lia | lia | discriminate].
  - intros H. split; [|split; [|reflexivity]].
    + destruct (Z.le_gt_cases 200 (statusCode response)) as [Hle|Hgt]; [assumption|].
      destruct H. left. lia.
    + destruct (Z.lt_ge_cases (statusCode response) 300) as [Hlt|Hge]; [assumption|].
      destruct H. right; left. assumption.
  - intros (_ & _ & H). discriminate.
  - intros H. destruct H. right; right. reflexivity.
Qed.

Lemma cleanupAndReject_run {A} (filePath : string) (error : Error) (w : World) :
  cleanupAndReject (A := A) filePath error w
  = (Throw error,
     emit (ConsoleError ("Error while deleting file after a previous error: "
                         ++ message error))
       (set_pending (λ ops, (ops ++ [PendingUnlink filePath])%list) w)).
Proof. reflexivity. Qed.

(** The three listeners of a broken stream run: the first rejects the
    promise; each has asked for the removal of the temp file, none has
    waited for it. *)
Lemma cleanup_thrice (filePath : string) (error : Error) (w : World) :
  ∃ w', first_settles (A := string) (cleanupAndReject filePath error)
          (first_settles (cleanupAndReject filePath error)
                         (cleanupAndReject filePath error)) w = (Throw error, w')
    ∧ files w' = files w ∧ tmpdir w' = tmpdir w ∧ clock w' = clock w
    ∧ pending w'
      = (pending w ++ [PendingUnlink filePath; PendingUnlink filePath;
                       PendingUnlink filePath])%list
    ∧ created_files (trace w') = created_files (trace w).
Proof.
  eexists. split; [reflexivity|]. simpl. rewrite <- !app_assoc.
  repeat split. unfold created_files. rewrite !omap_app. simpl. now rewrite !app_nil_r.
Qed.

Lemma stream_write_all_spec (path : string) (chunks : list Buffer) :
  ∀ (k : nat) (w : World) (content : Buffer),
    files w !! path = Some (File content) →
    (∃ w', stream_write_all path k chunks w = (Ok tt, w')
        ∧ files w' !! path = Some (File (content ++ concat chunks))
        ∧ trace w' = trace w ∧ tmpdir w' = tmpdir w ∧ pending w' = pending w)
    ∨ (∃ code msg w', stream_write_all path k chunks w = (Throw (SystemError code msg), w')
        ∧ is_file w' path ∧ pending w' = pending w).
Proof.
  induction chunks as [|chunk rest IH]; intros k w content Hc; simpl.
  - left. exists w. rewrite app_nil_r. auto.
  - run.
    destruct (disk_fault w path k) as [[code msg]|] eqn:Ef.
    + right. exists code, msg, w. split; [|split; [now exists content | reflexivity]].
      unfold stream_write. now rewrite Ef.
    + assert (Hw : stream_write path k chunk w
                   = (Ok tt, set_files <[path := File (content ++ chunk)]> w))
        by (unfold stream_write; now rewrite Ef, Hc).
      rewrite Hw.
      destruct (IH (S k) (set_files <[path := File (content ++ chunk)]> w)
                  (content ++ chunk)%list)
        as [(w' & E & Hf & Ht & Hd & Hp)|(code & msg & w' & E & Hf & Hp)].
      * simpl. apply lookup_insert_eq.
      * left. exists w'. rewrite E. rewrite <- app_assoc in Hf. auto.
      * right. exists code, msg, w'. now rewrite E.
Qed.

Lemma stream_open_outcome (path : string) (w : World) :
  (stream_open path w = (Ok tt, emit (Created path) (set_files <[path := File []]> w))
   ∧ files w !! path ≠ Some Dir ∧ open_fault w path = None)
  ∨ (∃ code msg, stream_open path w = (Throw (SystemError code msg), w)
                 ∧ (files w !! path = Some Dir ∨ is_Some (open_fault w path))).
Proof.
  unfold stream_open.
  destruct (files w !! path) as [[old|]|] eqn:E.
  2: { right. do 2 eexists. split; [reflexivity | now left]. }
  all: destruct (open_fault w path) as [[code msg]|];
    [ right; do 2 eexists; split; [reflexivity | right; eauto]
    | left; repeat split; discriminate ].
Qed.

(** How [pipeline] can end: the whole body is in the file, or a stream
    broke with a system error. *)
Lemma pipeline_outcome (response : IncomingMessage) (filePath : string) (w : World) :
  (∃ w', pipeline response filePath w = (Ok tt, w')
      ∧ aborted response = None
      ∧ files w' !! filePath = Some (File (concat (chunks response)))
      ∧ trace w' = (trace w ++ [Created filePath])%list
      ∧ tmpdir w' = tmpdir w ∧ pending w' = pending w)
  ∨ (∃ code msg w', pipeline response filePath w = (Throw (SystemError code msg), w')
      ∧ pending w' = pending w).
Proof.
  unfold pipeline, mbind, M_bind, bind.
  destruct (stream_open_outcome filePath w) as [(-> & _)|(code & msg & -> & _)].
  2: { right. do 3 eexists. split; reflexivity. }
  match goal with
  | |- context [stream_write_all _ _ _ ?w0] =>
      destruct (stream_write_all_spec filePath (chunks response) 0 w0 [])
        as [(w' & -> & Hf & Ht & Hd & Hp)|(code & msg & w' & -> & _ & Hp)];
        [simpl; apply lookup_insert_eq | |]
  end.
  - destruct (aborted response) as [[code msg]|].
    + right. exists code, msg, w'. split; [reflexivity | exact Hp].
    + left. exists w'. repeat split; assumption.
  - right. exists code, msg, w'. split; [reflexivity | exact Hp].
Qed.

Lemma download_valid (url : string) (w : World) (response : IncomingMessage) :
  network w url = Response response →
  ¬ invalid_response response →
  let filePath := posix_join (tmpdir w) "test_picture.jpg" in
  downloadImageFromUrlToTempDir url w
  = try_catch
      (pipeline response filePath;;
       mret filePath)
      (λ error,
       first_settles (cleanupAndReject filePath error)
         (first_settles (cleanupAndReject filePath error)
                        (cleanupAndReject filePath error))) w.
Proof.
  intros Hnet Hvalid. unfold downloadImageFromUrlToTempDir. rewrite Hnet.
  destruct ((statusCode response <? 200)%Z || (statusCode response >=? 300)%Z
            || negb (is_image (content_type response))) eqn:E.
  - now apply invalid_response_test in E.
  - reflexivity.
Qed.

Lemma download_invalid (url : string) (w : World) (response : IncomingMessage) :
  network w url = Response response →
  invalid_response response →
  downloadImageFromUrlToTempDir url w
  = (Throw (Error_new ("Failed to download image from " ++ url ++ ", status code: "
                       ++ pretty (statusCode response))), w).
Proof.
  intros Hnet Hinvalid. unfold downloadImageFromUrlToTempDir. rewrite Hnet.
  apply invalid_response_test in Hinvalid. now rewrite Hinvalid.
Qed.

(** The two ways a validated download ends. *)
Lemma download_valid_outcome (url : string) (w : World) (response : IncomingMessage) :
  network w url = Response response →
  ¬ invalid_response response →
  let filePath := posix_join (tmpdir w) "test_picture.jpg" in
  (∃ w', downloadImageFromUrlToTempDir url w = (Ok filePath, w')
      ∧ pipeline response filePath w = (Ok tt, w')
      ∧ aborted response = None
      ∧ files w' !! filePath = Some (File (concat (chunks response)))
      ∧ tmpdir w' = tmpdir w ∧ pending w' = pending w)
  ∨ (∃ code msg w1 w',
      downloadImageFromUrlToTempDir url w = (Throw (SystemError code msg), w')
      ∧ pipeline response filePath w = (Throw (SystemError code msg), w1)
      ∧ files w' = files w1
      ∧ pending w'
        = (pending w ++ [PendingUnlink filePath; PendingUnlink filePath;
                         PendingUnlink filePath])%list).
Proof.
  intros Hnet Hvalid filePath. rewrite (download_valid _ _ _ Hnet Hvalid). fold filePath.
  unfold try_catch, mbind, M_bind, bind.
  destruct (pipeline_outcome response filePath w)
    as [(w' & E & Ha & Hf & _ & Hd & Hp)|(code & msg & w1 & E & Hp)]; rewrite E.
  - left. exists w'. repeat split; assumption.
  - right.
    destruct (cleanup_thrice filePath (SystemError code msg) w1)
      as (w' & E' & Hf' & _ & _ & Hp' & _).
    exists code, msg, w1, w'. rewrite Hp', Hp. repeat split; assumption.
Qed.

Lemma download_ok_inv (url : string) (w w1 : World) (filePath : string) :
  downloadImageFromUrlToTempDir url w = (Ok filePath, w1) →
  ∃ response,
    network w url = Response response
    ∧ filePath = posix_join (tmpdir w) "test_picture.jpg"
    ∧ pipeline response filePath w = (Ok tt, w1)
    ∧ aborted response = None
    ∧ tmpdir w1 = tmpdir w
    ∧ pending w1 = pending w
    ∧ files w1 !! filePath = Some (File (concat (chunks response))).
Proof.
  intros H.
  destruct (network w url) as [|code msg|response] eqn:Hnet.
  - unfold downloadImageFromUrlToTempDir in H. rewrite Hnet in H. discriminate.
  - unfold downloadImageFromUrlToTempDir in H. rewrite Hnet in H. discriminate.
  - destruct (decide (invalid_response response)) as [Hi|Hv].
    + rewrite (download_invalid _ _ _ Hnet Hi) in H. discriminate.
    + destruct (download_valid_outcome url w response Hnet Hv)
        as [(w' & E & Ep & Ha & Hf & Hd & Hp)|(code & msg & w2 & w' & E & _)];
        rewrite E in H; [|discriminate].
      injection H as <- <-. exists response. auto 10.
Qed.


(** C5. Once a response has arrived, the download rejects with the error
    that carries the status code exactly when the response is not
    acceptable: its status code is outside [200, 300), or its content type
    is missing or does not begin with [image/].  Nothing is written and
    nothing is started in that case.  An acceptable response is streamed
    into the temp file. *)
Theorem download_rejects_iff_invalid (url : string) (w : World) (response : IncomingMessage) :
  network w url = Response response →
  ((downloadImageFromUrlToTempDir url w).1
   = Throw (Error_new ("Failed to download image from " ++ url ++ ", status code: "
                       ++ pretty (statusCode response)))
   ↔ ¬ acceptable_response response)
  ∧ (¬ acceptable_response response → (downloadImageFromUrlToTempDir url w).2 = w)
  ∧ (acceptable_response response →
     downloadImageFromUrlToTempDir url w
     = try_catch
         (pipeline response (posix_join (tmpdir w) "test_picture.jpg");;
          mret (posix_join (tmpdir w) "test_picture.jpg"))
         (λ error,
          first_settles
            (cleanupAndReject (posix_join (tmpdir w) "test_picture.jpg") error)
            (first_settles
               (cleanupAndReject (posix_join (tmpdir w) "test_picture.jpg") error)
               (cleanupAndReject (posix_join (tmpdir w) "test_picture.jpg") error))) w).
Proof.
  intros Hnet.
  assert (Hno : ¬ acceptable_response response → invalid_response response).
  { intros Hn. destruct (decide (invalid_response response)) as [Hi|Hv]; [assumption|].
    destruct Hn. now apply acceptable_response_iff. }
  split; [split|split].
  - intros H Ha. apply acceptable_response_iff in Ha.
    destruct (download_valid_outcome url w response Hnet Ha)
      as [(w' & E & _)|(code & msg & w1 & w' & E & _)];
      rewrite E in H; discriminate.
  - intros Hn. now rewrite (download_invalid _ _ _ Hnet (Hno Hn)).
  - intros Hn. now rewrite (download_invalid _ _ _ Hnet (Hno Hn)).
  - intros Ha. apply acceptable_response_iff in Ha. now apply download_valid.
Qed.

Lemma download_rejects_iff_invalid_witness :
  network demo_world "https://example.test/page.html" = Response html_response
  ∧ (downloadImageFromUrlToTempDir "https://example.test/page.html" demo_world).1
    = Throw (Error_new
               "Failed to download image from https://example.test/page.html, status code: 200")
  ∧ (downloadImageFromUrlToTempDir "https://example.test/page.html" demo_world).2
    = demo_world.
Proof.
  split; [reflexivity|].
  assert (Hn : ¬ acceptable_response html_response).
  { intros (_ & _ & subtype & H). injection H as H. vm_compute in H. discriminate H. }
  destruct (download_rejects_iff_invalid "https://example.test/page.html" demo_world
              html_response eq_refl) as (Hiff & Hw & _).
  split; [apply Hiff, Hn | apply Hw, Hn].
Defined.




(** C3, as the specification words it, fails: two downloads of one test
    run, of different URLs and at different times, are written to the same
    temp path. *)
Lemma two_downloads_share_one_path :
  (downloadImageFromUrlToTempDir "https://example.test/logo.jpg" demo_world).1
  = Ok "/tmp/test_picture.jpg"
  ∧ (downloadImageFromUrlToTempDir "https://example.test/other.jpg"
       (later (downloadImageFromUrlToTempDir "https://example.test/logo.jpg" demo_world).2)).1
    = Ok "/tmp/test_picture.jpg".
Proof. vm_compute. split; reflexivity. Qed.

(** ** Inversion of successful runs *)

Lemma bind_ok_inv {A B} (m : M A) (k : A → M B) (w w' : World) (b : B) :
  (m ≫= k) w = (Ok b, w') → ∃ a w1, m w = (Ok a, w1) ∧ k a w1 = (Ok b, w').
Proof.
  unfold mbind, M_bind, bind.
  destruct (m w) as [[a|e|e] w1]; [eauto | discriminate | discriminate].
Qed.

Lemma bind_ret_unit (m : M unit) (w : World) : (m ≫= λ _, mret tt) w = m w.
Proof.
  unfold mbind, M_bind, bind. destruct (m w) as [[[]|e|e] w1]; reflexivity.
Qed.

Lemma prop_ok_inv {A} (o : option A) (key : string) (w w' : World) (a : A) :
  prop o key w = (Ok a, w') → o = Some a ∧ w' = w.
Proof. destruct o; simpl; [intros [= -> ->]; auto | discriminate]. Qed.

Lemma lift_ok_inv {A} (r : Error + A) (w w' : World) (a : A) :
  lift r w = (Ok a, w') → r = inr a ∧ w' = w.
Proof. destruct r; simpl; [discriminate | intros [= -> ->]; auto]. Qed.

Lemma fs_readFileSync_ok_inv (path : string) (w w' : World) (content : Buffer) :
  fs_readFileSync path w = (Ok content, w') →
  files w !! path = Some (File content) ∧ w' = w.
Proof.
  unfold fs_readFileSync.
  destruct (files w !! path) as [[c|]|]; [intros [= -> ->]; auto | discriminate | discriminate].
Qed.

Lemma deleteTempFile_file (filePath : string) (w : World) :
  is_file w filePath →
  deleteTempFile filePath w = (Ok tt, emit (Unlinked filePath) (set_files (delete filePath) w)).
Proof.
  intros [c Hc]. unfold deleteTempFile, try_catch, fs_unlinkSync. now rewrite Hc.
Qed.

Lemma deleteTempFile_no_file (filePath : string) (w : World) :
  ¬ is_file w filePath →
  ∃ msg, deleteTempFile filePath w = (Ok tt, emit (ConsoleError msg) w).
Proof.
  intros Hn. unfold deleteTempFile, try_catch, fs_unlinkSync, console_error.
  destruct (files w !! filePath) as [[c|]|] eqn:E; [|eauto..].
  destruct Hn. now exists c.
Qed.

Lemma deleteTempFile_outcome (filePath : string) (w : World) :
  (is_file w filePath
   ∧ deleteTempFile filePath w
     = (Ok tt, emit (Unlinked filePath) (set_files (delete filePath) w)))
  ∨ (¬ is_file w filePath
     ∧ ∃ msg, deleteTempFile filePath w = (Ok tt, emit (ConsoleError msg) w)).
Proof.
  destruct (files w !! filePath) as [[c|]|] eqn:E.
  - left. split; [now exists c|]. apply deleteTempFile_file. now exists c.
  - right. assert (Hn : ¬ is_file w filePath) by (intros [c Hc]; congruence).
    split; [exact Hn|]. now apply deleteTempFile_no_file.
  - right. assert (Hn : ¬ is_file w filePath) by (intros [c Hc]; congruence).
    split; [exact Hn|]. now apply deleteTempFile_no_file.
Qed.

(** ** Steps of the computations and what they leave alone *)

Lemma wp_prop {A} (o : option A) (key : string) (post : Outcome A → World → Prop)
    (w : World) :
  (∀ a, o = Some a → post (Ok a) w) → (∀ e, post (Throw e) w) →
  wp (prop o key) post w.
Proof. intros Hok Hthrow. unfold wp. destruct o; simpl; auto. Qed.

Lemma wp_lift {A} (r : Error + A) (post : Outcome A → World → Prop) (w : World) :
  (∀ a, r = inr a → post (Ok a) w) → (∀ e, post (Throw e) w) →
  wp (lift r) post w.
Proof. intros Hok Hthrow. unfold wp. destruct r; simpl; auto. Qed.

Lemma wp_fs_readFileSync (path : string) (post : Outcome Buffer → World → Prop)
    (w : World) :
  (∀ content, files w !! path = Some (File content) → post (Ok content) w) →
  (∀ e, post (Throw e) w) →
  wp (fs_readFileSync path) post w.
Proof.
  intros Hok Hthrow. unfold wp, fs_readFileSync.
  destruct (files w !! path) as [[c|]|]; simpl; auto.
Qed.

Lemma wp_console_error (msg : string) (post : Outcome unit → World → Prop) (w : World) :
  post (Ok tt) (emit (ConsoleError msg) w) → wp (console_error msg) post w.
Proof. auto. Qed.

Lemma wp_attachImage (testInfo : TestInfo) (imagePath : string)
    (post : Outcome unit → World → Prop) (w : World) :
  post (Ok tt) (emit (Attached (path_basename imagePath) imagePath) w) →
  (∀ e, post (Throw e) w) →
  wp (attachImage testInfo imagePath) post w.
Proof.
  intros Hok Hthrow. unfold wp, attachImage.
  destruct (attach testInfo (path_basename imagePath) imagePath); simpl; auto.
Qed.

Lemma wp_deleteTempFile (filePath : string) (post : Outcome unit → World → Prop)
    (w : World) :
  (∀ w', same_but [filePath] w w' →
         (files w !! filePath ≠ Some Dir → files w' !! filePath = None) →
         post (Ok tt) w') →
  wp (deleteTempFile filePath) post w.
Proof.
  intros H. unfold wp.
  destruct (deleteTempFile_outcome filePath w) as [[[c Hf] ->]|[Hn [msg ->]]]; simpl.
  - apply H.
    + apply same_but_emit, same_but_delete, list_elem_of_here.
    + intros _. simpl. apply lookup_delete_eq.
  - apply H; [apply same_but_emit, same_but_refl|].
    intros Hnd. simpl. destruct (files w !! filePath) as [[c|]|] eqn:E.
    + destruct Hn. now exists c.
    + now destruct Hnd.
    + reflexivity.
Qed.

Lemma wp_stream_open (path : string) (post : Outcome unit → World → Prop) (w : World) :
  (∀ w', same_but [path] w w' → post (Ok tt) w') → (∀ e, post (Throw e) w) →
  wp (stream_open path) post w.
Proof.
  intros Hok Hthrow. unfold wp.
  destruct (stream_open_outcome path w) as [(-> & _)|(code & msg & -> & _)]; simpl;
    [|apply Hthrow].
  apply Hok, same_but_emit, same_but_insert, list_elem_of_here.
Qed.

Lemma wp_stream_write_all (path : string) (chunks : list Buffer) :
  ∀ (k : nat) (post : Outcome unit → World → Prop) (w : World),
    (∀ r w', same_but [path] w w' → (∀ e, r ≠ Crash e) → post r w') →
    wp (stream_write_all path k chunks) post w.
Proof.
  induction chunks as [|chunk rest IH]; intros k post w H; simpl.
  - apply H; [apply same_but_refl | discriminate].
  - apply wp_bind. unfold wp at 1, stream_write.
    destruct (disk_fault w path k) as [[code msg]|]; simpl.
    + apply H; [apply same_but_refl | discriminate].
    + destruct (files w !! path) as [[content|]|]; simpl; apply IH; intros r w' Hs Hr;
        apply H; try assumption.
      eapply same_but_trans; [|exact Hs]. apply same_but_insert, list_elem_of_here.
Qed.

Lemma wp_pipeline (response : IncomingMessage) (filePath : string)
    (post : Outcome unit → World → Prop) (w : World) :
  (∀ r w', same_but [filePath] w w' → (∀ e, r ≠ Crash e) → post r w') →
  wp (pipeline response filePath) post w.
Proof.
  intros H. unfold pipeline. apply wp_bind, wp_stream_open.
  - intros w1 Hs1. apply wp_bind, wp_stream_write_all. intros r w2 Hs2 Hr.
    assert (Hs : same_but [filePath] w w2) by (eapply same_but_trans; eassumption).
    destruct r as [[]|e|e].
    + destruct (aborted response) as [[code msg]|]; unfold wp; simpl;
        (apply H; [assumption | discriminate]).
    + apply H; [assumption | discriminate].
    + now destruct (Hr e).
  - intros e. apply H; [apply same_but_refl | discriminate].
Qed.

Lemma cleanupAndReject_same_but {A} (filePath : string) (error : Error) (w : World) :
  same_but [filePath] w (cleanupAndReject (A := A) filePath error w).2.
Proof.
  rewrite cleanupAndReject_run. simpl snd.
  apply same_but_emit, same_but_enqueue, list_elem_of_here.
Qed.

Lemma wp_cleanup_thrice (filePath : string) (error : Error)
    (post : Outcome string → World → Prop) (w : World) :
  (∀ w', same_but [filePath] w w' → post (Throw error) w') →
  wp (first_settles (cleanupAndReject filePath error)
        (first_settles (cleanupAndReject filePath error)
                       (cleanupAndReject filePath error)))
     post w.
Proof.
  intros H.
  pose proof (cleanupAndReject_same_but (A := string) filePath error w) as H1.
  pose proof (cleanupAndReject_same_but (A := string) filePath error
                (cleanupAndReject (A := string) filePath error w).2) as H2.
  pose proof (cleanupAndReject_same_but (A := string) filePath error
                (cleanupAndReject (A := string) filePath error
                   (cleanupAndReject (A := string) filePath error w).2).2) as H3.
  apply H.
  eapply same_but_trans; [exact H1|]. eapply same_but_trans; [exact H2|]. exact H3.
Qed.

(** An operation that lands changes nothing but its own path, and is
    never an exception someone could catch. *)
Lemma wp_land (op : Pending) (post : Outcome unit → World → Prop) (w : World) :
  (∀ r w', same_but [target op] w w' → (∀ e, r ≠ Throw e) → post r w') →
  wp (land op) post w.
Proof.
  intros H. destruct op as [path|path chunks]; simpl in *.
  - unfold wp, try_catch, fs_unlinkSync.
    destruct (files w !! path) as [[c|]|]; simpl; apply H; try discriminate.
    + apply same_but_emit, same_but_delete, list_elem_of_here.
    + apply same_but_refl.
    + apply same_but_refl.
  - apply wp_unhandled, wp_bind, wp_stream_open.
    + intros w1 Hs1. apply wp_stream_write_all. intros r w2 Hs2 Hr.
      assert (Hs : same_but [path] w w2) by (eapply same_but_trans; eassumption).
      destruct r as [[]|e|e]; apply H; (assumption || discriminate).
    + intros e. apply H; [apply same_but_refl | discriminate].
Qed.

Lemma wp_land_all (path : string) (ops : list Pending) :
  Forall (λ op, target op = path) ops →
  ∀ (post : Outcome unit → World → Prop) (w : World),
    (∀ r w', same_but [path] w w' → (∀ e, r ≠ Throw e) → post r w') →
    wp (land_all ops) post w.
Proof.
  induction 1 as [|op ops Hop _ IH]; intros post w H; simpl.
  - apply H; [apply same_but_refl | discriminate].
  - apply wp_bind, wp_land. rewrite Hop. intros r w1 Hs1 Hr.
    destruct r as [[]|e|e].
    + apply IH. intros r2 w2 Hs2 Hr2.
      apply H; [eapply same_but_trans; eassumption | assumption].
    + now destruct (Hr e).
    + apply H; [assumption | discriminate].
Qed.

Lemma wp_land_path (path : string) (post : Outcome unit → World → Prop) (w : World) :
  (∀ r w', same_but [path] w w' → (∀ e, r ≠ Throw e) → post r w') →
  wp (land_path path) post w.
Proof.
  intros H.
  assert (HF : Forall (λ op, target op = path)
                 (filter (λ op, target op = path) (pending w))).
  { apply Forall_forall. intros op Hin. now apply list_elem_of_filter in Hin as [? _]. }
  apply (wp_land_all path _ HF post
           (set_pending (filter (λ op, target op ≠ path)) w)).
  intros r w' Hs Hr. apply H; [|assumption].
  eapply same_but_trans; [|exact Hs]. apply same_but_dequeue, list_elem_of_here.
Qed.

Lemma wp_await {A} (inflight : string) (promise : M A)
    (post : Outcome A → World → Prop) (w : World) :
  (∀ w1, same_but [inflight] w w1 → wp promise post w1) →
  (∀ e w1, same_but [inflight] w w1 → post (Crash e) w1) →
  wp (await inflight promise) post w.
Proof.
  intros Hm Hc. unfold wp at 1, await. destruct (settles w inflight).
  - change (wp (land_path inflight ≫= λ _, promise) post w).
    apply wp_bind, wp_land_path. intros r w1 Hs Hr.
    destruct r as [[]|e|e]; [apply Hm | now destruct (Hr e) | apply Hc]; assumption.
  - apply Hm, same_but_refl.
Qed.

(** How the write of one chunk through a stream nobody listens to lands:
    the file holds the chunk, or the stream breaks. *)
Lemma land_stream_outcome (path : string) (chunk : Buffer) (w : World) :
  ((files w !! path ≠ Some Dir ∧ open_fault w path = None ∧ disk_fault w path 0 = None)
   ∧ ∃ w', land (PendingStream path [chunk]) w = (Ok tt, w')
           ∧ files w' = <[path := File chunk]> (files w))
  ∨ (¬ (files w !! path ≠ Some Dir ∧ open_fault w path = None ∧ disk_fault w path 0 = None)
     ∧ ∃ e w', land (PendingStream path [chunk]) w = (Crash e, w')
               ∧ ∀ q, q ≠ path → files w' !! q = files w !! q).
Proof.
  unfold land, unhandled, mbind, M_bind, bind.
  destruct (stream_open_outcome path w) as [(-> & Hd & Ho)|(code & msg & -> & Hbad)].
  - simpl. unfold mbind, M_bind, bind, stream_write. simpl.
    destruct (disk_fault w path 0) as [[code msg]|] eqn:Ef.
    + right. split; [intros (_ & _ & H); discriminate|].
      do 2 eexists. split; [reflexivity|].
      intros q Hq. simpl. apply lookup_insert_ne. congruence.
    + left. split; [auto|]. rewrite lookup_insert_eq. simpl.
      eexists. split; [reflexivity|]. simpl. apply insert_insert_eq.
  - right. split.
    + intros (Hd & Ho & _). destruct Hbad as [Hbad|[x Hx]]; congruence.
    + do 2 eexists. split; [reflexivity|]. reflexivity.
Qed.

(** ** The visual-regression orchestrator *)

Section VisualRegressionProperties.

Variable PNG_sync_read : Buffer → Error + PNG.
Variable sharp_resize_png : Buffer → nat → nat → Error + Buffer.
Variable PNG_pack : PNG → Buffer.
Variable pixelDiffers : Q → list Byte.byte → list Byte.byte → nat → nat → nat → bool.
Variable drawDiff : Q → list Byte.byte → list Byte.byte → nat → nat → list Byte.byte.

Local Abbreviation compare :=
  (getMismatchedPixelsCount PNG_sync_read sharp_resize_png PNG_pack pixelDiffers drawDiff).
Local Abbreviation resize := (resizeIfNeeded PNG_sync_read sharp_resize_png).
Local Abbreviation match_pixels := (pixelmatch pixelDiffers drawDiff).

(** The count is the number of positions that differ among the
    [width * height] positions examined. *)
Lemma pixelmatch_bound (img1 img2 output : Buffer) (w h : nat) (threshold : Q)
    (n : nat) (diff : Buffer) :
  match_pixels img1 img2 output w h threshold = inr (n, diff) → n ≤ w * h.
Proof using Type.
  unfold pixelmatch. repeat case_match; try discriminate.
  intros [= <- _]. etrans; [apply length_filter|]. now rewrite length_seq.
Qed.

(** The comparison goes through as soon as the three buffers have the
    size the dimensions call for. *)
Lemma pixelmatch_sizes (img1 img2 output : Buffer) (w h : nat) (threshold : Q) :
  length img1 = w * h * 4 → length img2 = w * h * 4 → length output = w * h * 4 →
  ∃ n diff, match_pixels img1 img2 output w h threshold = inr (n, diff).
Proof using Type.
  intros H1 H2 H3. unfold pixelmatch.
  rewrite H1, H2, H3, !Nat.eqb_refl. simpl. eauto.
Qed.

Lemma resizeIfNeeded_same (expected actual : PNG) (path : string) (w : World) :
  width expected = width actual → height expected = height actual →
  resize expected actual path w = (Ok actual, w).
Proof using Type.
  intros Hw Hh. unfold resizeIfNeeded. now rewrite Hw, Hh, !Nat.eqb_refl.
Qed.

Lemma resizeIfNeeded_differ (expected actual : PNG) (path : string) (w : World) :
  ¬ (width expected = width actual ∧ height expected = height actual) →
  resize expected actual path w
  = (buffer ← fs_readFileSync path;
     resized ← lift (sharp_resize_png buffer (width expected) (height expected));
     lift (PNG_sync_read resized)) w.
Proof using Type.
  intros Hne. unfold resizeIfNeeded.
  destruct (negb (width expected =? width actual)
            || negb (height expected =? height actual)) eqn:E; [reflexivity|].
  apply orb_false_iff in E as [E1 E2].
  apply negb_false_iff, Nat.eqb_eq in E1, E2. destruct Hne. now split.
Qed.

Lemma resizeIfNeeded_ok_inv (expected actual : PNG) (path : string) (w w' : World)
    (normalized : PNG) :
  resize expected actual path w = (Ok normalized, w') → w' = w.
Proof using Type.
  destruct (decide (width expected = width actual ∧ height expected = height actual))
    as [[Hw Hh]|Hne].
  - rewrite resizeIfNeeded_same by assumption. now intros [= _ <-].
  - rewrite resizeIfNeeded_differ by assumption. intros H.
    apply bind_ok_inv in H as (buffer & w1 & H1 & H).
    apply bind_ok_inv in H as (resized & w2 & H2 & H).
    apply fs_readFileSync_ok_inv in H1 as [_ ->].
    apply lift_ok_inv in H2 as [_ ->].
    now apply lift_ok_inv in H as [_ ->].
Qed.

Lemma wp_resizeIfNeeded (expected actual : PNG) (path : string)
    (post : Outcome PNG → World → Prop) (w : World) :
  (∀ a, post (Ok a) w) → (∀ e, post (Throw e) w) →
  wp (resize expected actual path) post w.
Proof using Type.
  intros Hok Hthrow. unfold resizeIfNeeded. case_match.
  - apply wp_bind, wp_fs_readFileSync; [intros c _|assumption].
    apply wp_bind, wp_lift; [intros r _|assumption].
    apply wp_lift; auto.
  - apply Hok.
Qed.

(** [writeDataToFile] on a name that is a string: the path is returned at
    once, the packed image is on its way to the file. *)
Lemma writeDataToFile_some (data : PNG) (fileName : string) (w : World) :
  writeDataToFile PNG_pack data (Some fileName) w
  = (Ok (posix_join (tmpdir w) fileName),
     set_pending
       (λ ops, (ops ++ [PendingStream (posix_join (tmpdir w) fileName) [PNG_pack data]])%list)
       w).
Proof using Type. reflexivity. Qed.

Lemma try_catch_some_inv {A} (body : M (option A)) (describe : Error → string)
    (w w' : World) (a : A) :
  try_catch body (λ error, console_error (describe error);; mret None) w = (Ok (Some a), w') →
  body w = (Ok (Some a), w').
Proof using Type.
  unfold try_catch. destruct (body w) as [[r|e|e] w1]; [auto | discriminate | discriminate].
Qed.

(** The path of the diff image written for project [p] in world [w]. *)
Local Abbreviation diffPath p w :=
  (posix_join (tmpdir w)
     (name p ++ "_" ++ pretty (clock w)
      ++ "_difference_between_basaline_and_actual_screenshot.png")).

(** What a run that returns a count has gone through before it turns to
    the diff image. *)
Lemma getMismatchedPixelsCount_ok_inv (actual : string) (testInfo : TestInfo)
    (ctx : BrowserContext) (w w' : World) (n : nat) :
  compare actual testInfo ctx w = (Ok (Some n), w') →
  ∃ p opts expectedBuffer expected actualBuffer original normalized diffData,
    project testInfo = Some p
    ∧ _options ctx = Some opts
    ∧ files w !! expectedBaselinePath (defaultBrowserType p) (default false (isMobile opts))
      = Some (File expectedBuffer)
    ∧ PNG_sync_read expectedBuffer = inr expected
    ∧ files w !! actual = Some (File actualBuffer)
    ∧ PNG_sync_read actualBuffer = inr original
    ∧ resize expected original actual w = (Ok normalized, w)
    ∧ match_pixels (data expected) (data normalized)
        (data (PNG_new (width expected) (height expected)))
        (width expected) (height expected) (19 # 100)%Q = inr (n, diffData)
    ∧ (n = 0 → w' = emit (Unlinked actual) (set_files (delete actual) w)).
Proof using Type.
  intros H. unfold getMismatchedPixelsCount in H.
  apply try_catch_some_inv in H.
  apply bind_ok_inv in H as (p & w1 & H1 & H). apply prop_ok_inv in H1 as [Hp ->].
  cbv beta zeta in H.
  apply bind_ok_inv in H as (opts & w1 & H1 & H). apply prop_ok_inv in H1 as [Ho ->].
  cbv beta zeta in H.
  set (expectedPath := expectedBaselinePath (defaultBrowserType p)
                         (default false (isMobile opts))) in *.
  apply bind_ok_inv in H as (expectedBuffer & w1 & H1 & H).
  apply fs_readFileSync_ok_inv in H1 as [He ->].
  apply bind_ok_inv in H as (expected & w1 & H1 & H).
  apply lift_ok_inv in H1 as [Hde ->].
  apply bind_ok_inv in H as (actualBuffer & w1 & H1 & H).
  apply fs_readFileSync_ok_inv in H1 as [Ha ->].
  apply bind_ok_inv in H as (original & w1 & H1 & H).
  apply lift_ok_inv in H1 as [Hda ->].
  apply bind_ok_inv in H as (normalized & w1 & H1 & H).
  assert (w1 = w) as -> by (eapply resizeIfNeeded_ok_inv; eassumption).
  cbv beta zeta in H.
  apply bind_ok_inv in H as ([count diffData] & w1 & Hm & H).
  apply lift_ok_inv in Hm as [Hm ->].
  apply bind_ok_inv in H as ([] & w1 & Htail & H).
  apply bind_ok_inv in H as ([] & w2 & Hdel & H).
  injection H as -> ->.
  exists p, opts, expectedBuffer, expected, actualBuffer, original, normalized, diffData.
  do 8 (split; [assumption|]).
  intros ->. simpl in Htail. injection Htail as <-.
  rewrite deleteTempFile_file in Hdel by (now exists actualBuffer).
  now injection Hdel as <-.
Qed.

(** A run in which decoding the actual screenshot throws: the error is
    logged, the call returns [undefined], and the file system is left as
    it was, the actual screenshot included. *)
Lemma getMismatchedPixelsCount_decode_error (actual : string) (testInfo : TestInfo)
    (ctx : BrowserContext) (w : World) (p : Project) (opts : ContextOptions)
    (expectedBuffer actualBuffer : Buffer) (expected : PNG) (error : Error) :
  project testInfo = Some p →
  _options ctx = Some opts →
  files w !! expectedBaselinePath (defaultBrowserType p) (default false (isMobile opts))
  = Some (File expectedBuffer) →
  PNG_sync_read expectedBuffer = inr expected →
  files w !! actual = Some (File actualBuffer) →
  PNG_sync_read actualBuffer = inl error →
  compare actual testInfo ctx w
  = (Ok None,
     emit (ConsoleError
             ("Error while comparing actual screenshot against a baseline screenshot: "
              ++ message error)) w).
Proof using Type.
  intros Hp Ho He Hde Ha Hda.
  unfold getMismatchedPixelsCount. run. rewrite Hp, Ho. simpl.
  unfold fs_readFileSync. rewrite He, Hde. simpl. rewrite Ha, Hda. reflexivity.
Qed.

(** C10. The count a comparison returns is a natural number bounded by the
    number of pixels, width times height, of the baseline image that was
    selected and decoded. *)
Theorem mismatch_count_bounded (actual : string) (testInfo : TestInfo)
    (ctx : BrowserContext) (w w' : World) (n : nat) :
  compare actual testInfo ctx w = (Ok (Some n), w') →
  ∃ p opts buffer baseline,
    project testInfo = Some p ∧ _options ctx = Some opts
    ∧ files w !! expectedBaselinePath (defaultBrowserType p) (default false (isMobile opts))
      = Some (File buffer)
    ∧ PNG_sync_read buffer = inr baseline
    ∧ n ≤ width baseline * height baseline.
Proof using Type.
  intros H.
  apply getMismatchedPixelsCount_ok_inv in H
    as (p & opts & eb & e & ab & o & a & dd & Hp & Ho & He & Hde & _ & _ & _ & Hm & _).
  exists p, opts, eb, e. repeat split; try assumption.
  eapply pixelmatch_bound; eassumption.
Qed.

(** C7. Under the contracts of the image libraries, for a decoded baseline
    and a decodable actual screenshot: when the two have the same width
    and height the decoded screenshot is used as it is; otherwise the
    screenshot file is resampled to the baseline's width and height and
    decoded again.  Either way the image handed to the comparison has
    exactly the baseline's dimensions, and the comparison does not fail on
    sizes. *)
Theorem resizeIfNeeded_normalizes
    (expectedBuffer actualBuffer : Buffer) (expected actual : PNG)
    (actualScreenshotPath : string) (w : World) :
  decodes_well_formed PNG_sync_read →
  resizes_exactly PNG_sync_read sharp_resize_png →
  PNG_sync_read expectedBuffer = inr expected →
  files w !! actualScreenshotPath = Some (File actualBuffer) →
  PNG_sync_read actualBuffer = inr actual →
  ∃ normalized,
    resize expected actual actualScreenshotPath w = (Ok normalized, w)
    ∧ (width expected = width actual ∧ height expected = height actual →
       normalized = actual)
    ∧ (¬ (width expected = width actual ∧ height expected = height actual) →
       ∃ resized,
         sharp_resize_png actualBuffer (width expected) (height expected) = inr resized
         ∧ PNG_sync_read resized = inr normalized)
    ∧ width normalized = width expected
    ∧ height normalized = height expected
    ∧ ∃ n diff,
        match_pixels (data expected) (data normalized)
          (data (PNG_new (width expected) (height expected)))
          (width expected) (height expected) (19 # 100)%Q = inr (n, diff).
Proof using Type.
  intros Hwf Hsharp Hde Hfile Hda.
  destruct (Hwf _ _ Hde) as (Hw & Hh & Hlen).
  assert (Hnew : length (data (PNG_new (width expected) (height expected)))
                 = width expected * height expected * 4)
    by (simpl; rewrite repeat_length; lia).
  destruct (decide (width expected = width actual ∧ height expected = height actual))
    as [[Ew Eh]|Hne].
  - exists actual. rewrite resizeIfNeeded_same by assumption.
    destruct (Hwf _ _ Hda) as (_ & _ & Hlena).
    repeat split; try solve [auto | intros H; destruct H; now split].
    apply pixelmatch_sizes; [assumption | rewrite Ew, Eh; assumption | assumption].
  - destruct (Hsharp actualBuffer actual (width expected) (height expected) Hda Hw Hh)
      as (resized & normalized & Hr & Hdn & Hnw & Hnh).
    exists normalized. rewrite resizeIfNeeded_differ by assumption.
    destruct (Hwf _ _ Hdn) as (_ & _ & Hlenn).
    repeat split; try solve [auto | intros [? ?]; destruct Hne; now split].
    + unfold mbind, M_bind, bind, fs_readFileSync.
      rewrite Hfile, Hr. simpl. now rewrite Hdn.
    + intros _. eauto.
    + apply pixelmatch_sizes; [assumption | rewrite <- Hnw, <- Hnh; assumption | assumption].
Qed.

(** C3, as the code has it. The diff writer's temp path is the temp
    directory joined with [<project>_<timestamp>_<logical name>]; when the
    logical name contains no separator, two diff images written for the
    same test and logical name under different timestamps have different
    paths.  The downloader's temp path is the temp directory joined with
    the fixed name [test_picture.jpg]: it depends on neither the test, the
    timestamp nor the URL. *)
Theorem temp_paths_of_producers (data : PNG) (testInfo : TestInfo) (logical : string) :
  (∀ w fileName w1 filePath w2,
     createUniqueFileName testInfo logical w = (Ok (Some fileName), w1) →
     writeDataToFile PNG_pack data (Some fileName) w1 = (Ok filePath, w2) →
     ∃ p, project testInfo = Some p
          ∧ filePath
            = posix_join (tmpdir w) (name p ++ "_" ++ pretty (clock w) ++ "_" ++ logical))
  ∧ (slash_free logical = true →
     ∀ wa wb na nb wa1 wb1 pa pb wa2 wb2,
       tmpdir wa = tmpdir wb →
       clock wa ≠ clock wb →
       createUniqueFileName testInfo logical wa = (Ok (Some na), wa1) →
       writeDataToFile PNG_pack data (Some na) wa1 = (Ok pa, wa2) →
       createUniqueFileName testInfo logical wb = (Ok (Some nb), wb1) →
       writeDataToFile PNG_pack data (Some nb) wb1 = (Ok pb, wb2) →
       pa ≠ pb)
  ∧ (∀ url w filePath w',
     downloadImageFromUrlToTempDir url w = (Ok filePath, w') →
     filePath = posix_join (tmpdir w) "test_picture.jpg").
Proof using Type.
  assert (Hpath : ∀ w fileName w1 filePath w2,
     createUniqueFileName testInfo logical w = (Ok (Some fileName), w1) →
     writeDataToFile PNG_pack data (Some fileName) w1 = (Ok filePath, w2) →
     ∃ p, project testInfo = Some p
          ∧ filePath
            = posix_join (tmpdir w) (name p ++ "_" ++ pretty (clock w) ++ "_" ++ logical)).
  { intros w fileName w1 filePath w2 Hname Hwrite.
    destruct (project testInfo) as [p|] eqn:Hp.
    - rewrite (createUniqueFileName_some _ p) in Hname by assumption.
      injection Hname as <- <-.
      rewrite writeDataToFile_some in Hwrite. injection Hwrite as <- _. eauto.
    - destruct (createUniqueFileName_none testInfo logical w Hp) as [msg E].
      rewrite E in Hname. discriminate. }
  split; [exact Hpath|]. split.
  - intros Hl wa wb na nb wa1 wb1 pa pb wa2 wb2 Htmp Hclock Hna Hwa Hnb Hwb E.
    destruct (Hpath _ _ _ _ _ Hna Hwa) as (p & Hp & ->).
    destruct (Hpath _ _ _ _ _ Hnb Hwb) as (p' & Hp' & ->).
    assert (p' = p) as -> by (rewrite Hp in Hp'; now injection Hp').
    rewrite Htmp in E. now apply unique_path_inj in E.
  - intros url w filePath w' H.
    apply download_ok_inv in H as (response & _ & -> & _). reflexivity.
Qed.

(** Every run of the orchestrator, whatever its outcome: it never throws;
    it leaves alone every path but the actual screenshot and the diff
    image; when it returns [undefined] it has not touched the actual
    screenshot either; and when it returns a count the actual screenshot
    is gone. *)
Lemma getMismatchedPixelsCount_run (actual : string) (testInfo : TestInfo)
    (ctx : BrowserContext) (w : World) :
  wp (compare actual testInfo ctx)
     (λ r w',
        (∀ e, r ≠ Throw e)
        ∧ tmpdir w' = tmpdir w ∧ clock w' = clock w
        ∧ (∀ q, q ≠ actual →
                (∀ p, project testInfo = Some p → q ≠ diffPath p w) →
                files w' !! q = files w !! q)
        ∧ (r = Ok None →
           (∀ p, project testInfo = Some p → actual ≠ diffPath p w) →
           files w' !! actual = files w !! actual)
        ∧ (∀ n, r = Ok (Some n) → files w' !! actual = None)) w.
Proof using Type.
  set (P := λ (r : Outcome (option nat)) (w' : World),
        (∀ e, r ≠ Throw e)
        ∧ tmpdir w' = tmpdir w ∧ clock w' = clock w
        ∧ (∀ q, q ≠ actual →
                (∀ p, project testInfo = Some p → q ≠ diffPath p w) →
                files w' !! q = files w !! q)
        ∧ (r = Ok None →
           (∀ p, project testInfo = Some p → actual ≠ diffPath p w) →
           files w' !! actual = files w !! actual)
        ∧ (∀ n, r = Ok (Some n) → files w' !! actual = None)).
  assert (Hclose : ∀ (D : list string) r w1,
             same_but D w w1 →
             (∀ q, q ∈ D → (q = actual ∧ r ≠ Ok None)
                           ∨ ∃ p, project testInfo = Some p ∧ q = diffPath p w) →
             (∀ e, r ≠ Throw e) →
             (∀ n, r = Ok (Some n) → files w1 !! actual = None) →
             P r w1).
  { intros D r w1 (Ht & Hc & Hf & _ & _) HD Hr Hn. unfold P.
    split; [assumption|]. split; [assumption|]. split; [assumption|].
    split; [|split; [|assumption]].
    - intros q Hqa Hqd. apply Hf. intros Hin.
      destruct (HD q Hin) as [[-> _]|(p & Hp & ->)]; [now apply Hqa | now apply (Hqd p)].
    - intros -> Had. apply Hf. intros Hin.
      destruct (HD actual Hin) as [[_ Hne]|(p & Hp & E)]; [now apply Hne | now apply (Had p)]. }
  assert (Hstop : ∀ (D : list string) r w1,
             same_but D w w1 →
             (∀ q, q ∈ D → ∃ p, project testInfo = Some p ∧ q = diffPath p w) →
             (∀ e, r ≠ Throw e) → (∀ n, r ≠ Ok (Some n)) → P r w1).
  { intros D r w1 Hs HD Hr Hn. apply (Hclose D); [assumption | | assumption |].
    - intros q Hq. right. now apply HD.
    - intros n E. now destruct (Hn n). }
  assert (Hfail : ∀ (D : list string) w1 e,
             same_but D w w1 →
             (∀ q, q ∈ D → ∃ p, project testInfo = Some p ∧ q = diffPath p w) →
             wp (console_error
                   ("Error while comparing actual screenshot against a baseline screenshot: "
                    ++ message e);; mret None) P w1).
  { intros D w1 e Hs HD. apply wp_bind, wp_console_error. unfold wp. simpl.
    apply (Hstop D); [now apply same_but_emit | assumption | discriminate | discriminate]. }
  assert (Hnil : ∀ q : string, q ∈ @nil string → ∃ p, project testInfo = Some p ∧ q = diffPath p w)
    by (intros q Hq; inversion Hq).
  pose proof (same_but_refl [] w) as Hw.
  unfold getMismatchedPixelsCount. apply wp_try_catch.
  apply wp_bind, wp_prop; [intros p Hp | intros e; now apply (Hfail [])].
  apply wp_bind, wp_prop; [intros opts Ho | intros e; now apply (Hfail [])].
  apply wp_bind, wp_fs_readFileSync; [intros eb He | intros e; now apply (Hfail [])].
  apply wp_bind, wp_lift; [intros expected Hde | intros e; now apply (Hfail [])].
  apply wp_bind, wp_fs_readFileSync; [intros ab Ha | intros e; now apply (Hfail [])].
  apply wp_bind, wp_lift; [intros original Hda | intros e; now apply (Hfail [])].
  apply wp_bind, wp_resizeIfNeeded; [intros normalized | intros e; now apply (Hfail [])].
  apply wp_bind, wp_lift; [intros [n diffData] Hm | intros e; now apply (Hfail [])].
  set (d := diffPath p w).
  assert (Hd : ∀ q : string, q ∈ [d] → ∃ p, project testInfo = Some p ∧ q = diffPath p w)
    by (intros q Hq; apply list_elem_of_singleton in Hq as ->; eauto).
  assert (Hfinish : ∀ (D : list string) w5,
             same_but D w w5 →
             (∀ q, q ∈ D → ∃ p, project testInfo = Some p ∧ q = diffPath p w) →
             wp (deleteTempFile actual ≫= λ _, mret (Some n))
                (λ r w', match r with
                         | Throw e =>
                             wp (console_error
                                   ("Error while comparing actual screenshot against a baseline screenshot: "
                                    ++ message e);; mret None) P w'
                         | _ => P r w'
                         end) w5).
  { intros D w5 Hs HD. apply wp_bind, wp_deleteTempFile. intros w' Hs' Hgone.
    unfold wp. simpl. apply (Hclose (actual :: D)).
    - apply (same_but_trans _ w w5 w').
      + revert Hs. apply same_but_weaken. intros q Hq. now apply list_elem_of_further.
      + revert Hs'. apply same_but_weaken. intros q Hq.
        apply list_elem_of_singleton in Hq as ->. apply list_elem_of_here.
    - intros q Hq. apply elem_of_cons in Hq as [->|Hq]; [left; split; [reflexivity|discriminate]|].
      right. now apply HD.
    - discriminate.
    - intros _ _. apply Hgone. intros Hdir.
      destruct Hs as (_ & _ & _ & _ & Hnd). apply Hnd in Hdir.
      rewrite Ha in Hdir. discriminate. }
  apply wp_bind.
  destruct (0 <? n).
  2: { unfold wp at 1. simpl. now apply (Hfinish []). }
  apply wp_bind. unfold wp at 1. rewrite (createUniqueFileName_some _ p) by assumption.
  cbn [fst snd].
  apply wp_bind. unfold wp at 1. rewrite writeDataToFile_some. cbn [fst snd]. fold d.
  match goal with
  | |- wp _ _ ?w0 =>
      assert (Hs2 : same_but [d] w w0) by (apply same_but_enqueue, list_elem_of_here);
        generalize dependent w0; intros w2 Hs2
  end.
  assert (Hcrash : ∀ e w3, same_but [d] w w3 → P (Crash e) w3).
  { intros e w3 Hs3. apply (Hstop [d]); [assumption | assumption | discriminate | discriminate]. }
  apply wp_bind, wp_await;
    [intros w3 Hs3 | intros e w3 Hs3; apply Hcrash; eapply same_but_trans; eassumption].
  assert (Hs3' : same_but [d] w w3) by (eapply same_but_trans; eassumption).
  clear Hs2 Hs3.
  apply wp_attachImage; [|intros e; now apply (Hfail [d])].
  apply wp_bind, wp_await;
    [intros w4 Hs4
    | intros e w4 Hs4; apply Hcrash; eapply same_but_trans; [|exact Hs4];
      now apply same_but_emit].
  assert (Hs4' : same_but [d] w w4)
    by (eapply same_but_trans; [|exact Hs4]; now apply same_but_emit).
  clear Hs3' Hs4.
  apply wp_attachImage; [|intros e; now apply (Hfail [d])].
  apply wp_bind, wp_await;
    [intros w5 Hs5
    | intros e w5 Hs5; apply Hcrash; eapply same_but_trans; [|exact Hs5];
      now apply same_but_emit].
  assert (Hs5' : same_but [d] w w5)
    by (eapply same_but_trans; [|exact Hs5]; now apply same_but_emit).
  clear Hs4' Hs5.
  apply wp_attachImage; [|intros e; now apply (Hfail [d])].
  apply wp_deleteTempFile. intros w6 Hs6 _.
  apply (Hfinish [d]); [|assumption].
  eapply same_but_trans; [|exact Hs6]. now apply same_but_emit.
Qed.

(** X5. The orchestrator never rejects: an exception inside it is logged
    and turned into the result [undefined].  And when it returns
    [undefined] it has not removed the actual screenshot: the path holds
    what it held before the call (unless the screenshot path is the very
    path the diff image is written to). *)
Theorem getMismatchedPixelsCount_undefined_keeps_actual (actual : string)
    (testInfo : TestInfo) (ctx : BrowserContext) (w : World) :
  (∀ e, (compare actual testInfo ctx w).1 ≠ Throw e)
  ∧ ((compare actual testInfo ctx w).1 = Ok None →
     (∀ p, project testInfo = Some p → actual ≠ diffPath p w) →
     files (compare actual testInfo ctx w).2 !! actual = files w !! actual).
Proof using Type.
  destruct (getMismatchedPixelsCount_run actual testInfo ctx w) as (H1 & _ & _ & _ & H2 & _).
  split; assumption.
Qed.

(** X8. For a name that is a string, [writeDataToFile] returns the temp
    directory joined with the name at once, in every case: the file system
    is as it was, the file does not exist yet unless it did before, and the
    packed image is in flight.  When that write lands (nothing else being
    in flight), either the file holds exactly the packed image, replacing
    what was there, or the stream breaks with nobody listening, which
    happens exactly when the path is a directory, the file cannot be
    opened or the disk refuses the data; no other path changes. *)
Theorem writeDataToFile_returns_before_writing (data : PNG) (fileName : string) (w : World) :
  writeDataToFile PNG_pack data (Some fileName) w
  = (Ok (posix_join (tmpdir w) fileName),
     set_pending
       (λ ops, (ops ++ [PendingStream (posix_join (tmpdir w) fileName) [PNG_pack data]])%list)
       w)
  ∧ files (writeDataToFile PNG_pack data (Some fileName) w).2 = files w
  ∧ trace (writeDataToFile PNG_pack data (Some fileName) w).2 = trace w
  ∧ (pending w = [] →
     (files w !! posix_join (tmpdir w) fileName ≠ Some Dir
      ∧ open_fault w (posix_join (tmpdir w) fileName) = None
      ∧ disk_fault w (posix_join (tmpdir w) fileName) 0 = None
      ↔ ((writeDataToFile PNG_pack data (Some fileName);; drain) w).1 = Ok tt)
     ∧ (((writeDataToFile PNG_pack data (Some fileName);; drain) w).1 = Ok tt →
        files ((writeDataToFile PNG_pack data (Some fileName);; drain) w).2
        = <[posix_join (tmpdir w) fileName := File (PNG_pack data)]> (files w))
     ∧ (((writeDataToFile PNG_pack data (Some fileName);; drain) w).1 ≠ Ok tt →
        ∃ e, ((writeDataToFile PNG_pack data (Some fileName);; drain) w).1 = Crash e)
     ∧ (∀ q, q ≠ posix_join (tmpdir w) fileName →
             files ((writeDataToFile PNG_pack data (Some fileName);; drain) w).2 !! q
             = files w !! q)).
Proof using Type.
  clear PNG_sync_read sharp_resize_png pixelDiffers drawDiff.
  split; [reflexivity|]. split; [reflexivity|]. split; [reflexivity|].
  intros Hp. set (path := posix_join (tmpdir w) fileName).
  assert (E : (writeDataToFile PNG_pack data (Some fileName);; drain) w
              = unhandled (stream_open path;; stream_write_all path 0 [PNG_pack data])
                  (set_pending (λ _, []) w)).
  { unfold mbind at 1, M_bind at 1, bind at 1. rewrite writeDataToFile_some. fold path.
    unfold drain. simpl pending. rewrite Hp.
    change (land_all ([] ++ [PendingStream path [PNG_pack data]]))
      with (land (PendingStream path [PNG_pack data]) ≫= λ _, mret tt).
    rewrite bind_ret_unit. reflexivity. }
  rewrite E. clear E.
  change (unhandled (stream_open path;; stream_write_all path 0 [PNG_pack data]))
    with (land (PendingStream path [PNG_pack data])).
  destruct (land_stream_outcome path (PNG_pack data) (set_pending (λ _, []) w))
    as [(Hok & w' & -> & Hf)|(Hbad & e & w' & -> & Hf)]; simpl in *.
  - split; [split; [reflexivity | intros _; exact Hok]|].
    split; [intros _; exact Hf|]. split; [intros H; now destruct H|].
    intros q Hq. rewrite Hf. apply lookup_insert_ne. congruence.
  - split; [split; [intros H; now destruct Hbad | discriminate]|].
    split; [discriminate|]. split; [eauto|]. exact Hf.
Qed.

(** X9. Without a project on [testInfo] no diff image can be written:
    [createUniqueFileName] logs and yields [undefined], [getTempFilePath]
    logs in turn, and [writeDataToFile] then throws a [TypeError], having
    created no file. *)
Theorem writeDataToFile_without_project_throws (data : PNG) (testInfo : TestInfo)
    (logical : string) (w : World) :
  project testInfo = None →
  ∃ msg w',
    (createUniqueFileName testInfo logical ≫= writeDataToFile PNG_pack data) w
    = (Throw (TypeError msg), w')
    ∧ files w' = files w
    ∧ created_files (trace w') = created_files (trace w).
Proof using Type.
  intros Hp.
  destruct (createUniqueFileName_none testInfo logical w Hp) as [msg E].
  unfold mbind at 1, M_bind at 1, bind at 1. rewrite E.
  unfold writeDataToFile, getTempFilePath, fs_createWriteStream. run.
  do 2 eexists. split; [reflexivity|]. simpl. split; [reflexivity|].
  unfold created_files. rewrite !omap_app. simpl. now rewrite !app_nil_r.
Qed.


(** X11. A baseline that is missing makes the comparison return
    [undefined]: the only effect is a console line naming the baseline
    path that could not be opened; nothing is created or removed. *)
Theorem getMismatchedPixelsCount_missing_baseline (actual : string) (testInfo : TestInfo)
    (ctx : BrowserContext) (w : World) (p : Project) (opts : ContextOptions) :
  project testInfo = Some p →
  _options ctx = Some opts →
  files w !! expectedBaselinePath (defaultBrowserType p) (default false (isMobile opts))
  = None →
  compare actual testInfo ctx w
  = (Ok None,
     emit (ConsoleError
             ("Error while comparing actual screenshot against a baseline screenshot: "
              ++ "ENOENT: no such file or directory, open '"
              ++ expectedBaselinePath (defaultBrowserType p) (default false (isMobile opts))
              ++ "'")) w).
Proof using Type.
  intros Hp Ho He.
  unfold getMismatchedPixelsCount. run. rewrite Hp, Ho. simpl.
  unfold fs_readFileSync. rewrite He. reflexivity.
Qed.

End VisualRegressionProperties.

(** ** The reference instance meets the contracts *)

Lemma take_ones_repeat (n : nat) (rest : Buffer) :
  take_ones (repeat Byte.x01 n ++ Byte.x00 :: rest) = (n, Byte.x00 :: rest).
Proof. induction n as [|n IH]; simpl; [reflexivity | now rewrite IH]. Qed.

Lemma raw_decode_encode (img : PNG) :
  0 < width img → 0 < height img → length (data img) = width img * height img * 4 →
  raw_decode (raw_encode img) = inr img.
Proof.
  intros Hw Hh Hlen. unfold raw_decode, raw_encode.
  rewrite take_ones_repeat. simpl. rewrite take_ones_repeat. simpl.
  apply Nat.ltb_lt in Hw, Hh. apply Nat.eqb_eq in Hlen.
  rewrite Hw, Hh, Hlen. simpl. now destruct img.
Qed.

Lemma raw_decode_well_formed : decodes_well_formed raw_decode.
Proof.
  intros buf img. unfold raw_decode.
  destruct (take_ones buf) as [w rest].
  destruct (take_zero rest) as [rest'|]; [|discriminate].
  destruct (take_ones rest') as [h rest''].
  destruct (take_zero rest'') as [pixels|]; [|discriminate].
  destruct ((0 <? w) && (0 <? h) && (length pixels =? w * h * 4)) eqn:E; [|discriminate].
  intros [= <-]. simpl.
  apply andb_true_iff in E as [E E3]. apply andb_true_iff in E as [E1 E2].
  apply Nat.ltb_lt in E1, E2. apply Nat.eqb_eq in E3. auto.
Qed.

Lemma raw_resizes_exactly : resizes_exactly raw_decode raw_resize.
Proof.
  intros buf img w h Hd Hw Hh. unfold raw_resize. rewrite Hd.
  assert (E : (0 <? w) && (0 <? h) = true)
    by (apply andb_true_iff; split; now apply Nat.ltb_lt).
  rewrite E. exists (raw_encode (PNG_new w h)), (PNG_new w h).
  repeat split.
  apply raw_decode_encode; simpl; [assumption..|].
  rewrite repeat_length. lia.
Qed.

(** ** The properties at work on the reference worlds *)

Lemma createUniqueFileName_timestamps_never_collide_witness :
  clock demo_world ≠ clock (later demo_world)
  ∧ (createUniqueFileName demo_testInfo "logo.png" demo_world).1
    ≠ (createUniqueFileName demo_testInfo "logo.png" (later demo_world)).1.
Proof.
  assert (H : clock demo_world ≠ clock (later demo_world)) by (simpl; lia).
  split; [exact H|].
  apply (createUniqueFileName_timestamps_never_collide demo_testInfo
           {| name := "chromium"; defaultBrowserType := Some "chromium" |}
           "logo.png" demo_world (later demo_world) eq_refl H).
Defined.

Lemma mismatch_count_bounded_witness :
  (raw_compare "/tmp/small.png" demo_testInfo demo_context demo_world).1 = Ok (Some 2)
  ∧ ∃ buffer baseline,
      files demo_world !! baseline_default = Some (File buffer)
      ∧ raw_decode buffer = inr baseline
      ∧ 2 ≤ width baseline * height baseline.
Proof.
  split; [vm_compute; reflexivity|].
  destruct (mismatch_count_bounded raw_decode raw_resize raw_encode raw_differs
              raw_diff "/tmp/small.png" demo_testInfo demo_context demo_world
              (raw_compare "/tmp/small.png" demo_testInfo demo_context demo_world).2 2
              ltac:(vm_compute; reflexivity))
    as (p & opts & buffer & baseline & Hp & Ho & Hf & Hd & Hn).
  injection Hp as <-. injection Ho as <-.
  exists buffer, baseline. auto.
Defined.

Lemma resizeIfNeeded_normalizes_witness :
  ∃ normalized,
    resizeIfNeeded raw_decode raw_resize logo logo_small "/tmp/small.png" demo_world
    = (Ok normalized, demo_world)
    ∧ width normalized = 2 ∧ height normalized = 1.
Proof.
  destruct (resizeIfNeeded_normalizes raw_decode raw_resize raw_differs raw_diff
              (raw_encode logo) (raw_encode logo_small) logo logo_small
              "/tmp/small.png" demo_world
              raw_decode_well_formed raw_resizes_exactly eq_refl eq_refl eq_refl)
    as (normalized & Hrun & _ & _ & Hw & Hh & _).
  exists normalized. auto.
Defined.

(** C1 at work on a failing comparison. The file at the actual-screenshot
    path is a JPEG, as the downloader leaves it; decoding it throws, the
    orchestrator logs the error and returns [undefined], and the temp file
    is still there afterwards, whereas the runs that return a count have
    removed it. *)
Theorem actual_screenshot_survives_failed_comparison :
  is_file demo_world "/tmp/test_picture.jpg"
  ∧ (raw_compare "/tmp/test_picture.jpg" demo_testInfo demo_context demo_world).1 = Ok None
  ∧ files (raw_compare "/tmp/test_picture.jpg" demo_testInfo demo_context demo_world).2
      !! "/tmp/test_picture.jpg" = Some (File jpeg_bytes)
  ∧ (raw_compare "/tmp/match.png" demo_testInfo demo_context demo_world).1 = Ok (Some 0)
  ∧ files (raw_compare "/tmp/match.png" demo_testInfo demo_context demo_world).2
      !! "/tmp/match.png" = None.
Proof.
  split; [now exists jpeg_bytes|]. vm_compute. repeat split.
Qed.

(** C4 at work on two comparisons that find one pixel off.

    In the first the test runner rejects the attachment (its disk is
    full).  The diff image has been written by then; the rejection is
    caught and logged, the call returns [undefined], and the clean-up that
    follows the attachments is skipped: the diff image is created and never
    removed, nothing being left in flight that could remove it.

    In the second the promises of the test runner settle at once.  The
    write stream has not opened the file when [deleteTempFile] runs:
    [unlinkSync] fails, which is logged, and the call returns the count.
    The stream creates the diff image afterwards, and there it stays.

    A comparison that finds no difference creates no file. *)
Theorem diff_image_left_behind :
  ((raw_compare "/tmp/off.png" failing_attach_testInfo demo_context demo_world).1 = Ok None
   ∧ created_files
       (trace (raw_compare "/tmp/off.png" failing_attach_testInfo demo_context demo_world).2)
     = [demo_diff_path]
   ∧ removed_files
       (trace (raw_compare "/tmp/off.png" failing_attach_testInfo demo_context demo_world).2)
     = []
   ∧ files (raw_compare "/tmp/off.png" failing_attach_testInfo demo_context demo_world).2
       !! demo_diff_path = Some (File (raw_encode demo_diff))
   ∧ pending (raw_compare "/tmp/off.png" failing_attach_testInfo demo_context demo_world).2
     = [])
  ∧ ((raw_compare "/tmp/off.png" demo_testInfo demo_context (at_once demo_world)).1
     = Ok (Some 1)
     ∧ removed_files
         (trace (raw_compare "/tmp/off.png" demo_testInfo demo_context (at_once demo_world)).2)
       = ["/tmp/off.png"]
     ∧ files (raw_compare "/tmp/off.png" demo_testInfo demo_context (at_once demo_world)).2
         !! demo_diff_path = None
     ∧ pending (raw_compare "/tmp/off.png" demo_testInfo demo_context (at_once demo_world)).2
       = [PendingStream demo_diff_path [raw_encode demo_diff]]
     ∧ (drain (raw_compare "/tmp/off.png" demo_testInfo demo_context
                 (at_once demo_world)).2).1 = Ok tt
     ∧ files (drain (raw_compare "/tmp/off.png" demo_testInfo demo_context
                       (at_once demo_world)).2).2
         !! demo_diff_path = Some (File (raw_encode demo_diff))
     ∧ pending (drain (raw_compare "/tmp/off.png" demo_testInfo demo_context
                         (at_once demo_world)).2).2 = [])
  ∧ ((raw_compare "/tmp/match.png" demo_testInfo demo_context demo_world).1 = Ok (Some 0)
     ∧ created_files
         (trace (raw_compare "/tmp/match.png" demo_testInfo demo_context demo_world).2) = []
     ∧ pending (raw_compare "/tmp/match.png" demo_testInfo demo_context demo_world).2 = []).
Proof. vm_compute. repeat split. Qed.

(** * Further properties *)

(** ** The temp-file store *)



(** X4. The name built by [createUniqueFileName] does not keep its three
    parts apart: a project whose name ends in [_<t1>], asked at time [t2]
    for file [f], gets the very name that the project without that suffix
    gets at time [t1] for file [<t2>_f]. *)
Theorem createUniqueFileName_parts_run_together
    (testInfoA testInfoB : TestInfo) (projectA projectB : Project)
    (filename : string) (t1 t2 : Z) (wA wB : World) :
  project testInfoA = Some projectA →
  project testInfoB = Some projectB →
  name projectA = name projectB ++ "_" ++ pretty t1 →
  clock wA = t2 →
  clock wB = t1 →
  (createUniqueFileName testInfoA filename wA).1
  = (createUniqueFileName testInfoB (pretty t2 ++ "_" ++ filename) wB).1.
Proof.
  intros HA HB Hname <- <-.
  rewrite (createUniqueFileName_some _ projectA), (createUniqueFileName_some _ projectB)
    by assumption.
  simpl. rewrite Hname. do 2 f_equal.
  rewrite !string_app_assoc. reflexivity.
Qed.

Lemma createUniqueFileName_parts_run_together_witness :
  clock demo_world = 1700000000000%Z
  ∧ (createUniqueFileName
       {| project := Some {| name := "chromium_1700000000001";
                             defaultBrowserType := None |};
          attach := λ _ _, None |} "logo.png" demo_world).1
    = (createUniqueFileName demo_testInfo "1700000000000_logo.png" (later demo_world)).1.
Proof.
  split; [reflexivity|].
  apply (createUniqueFileName_parts_run_together
           {| project := Some {| name := "chromium_1700000000001";
                                 defaultBrowserType := None |};
              attach := λ _ _, None |}
           demo_testInfo
           {| name := "chromium_1700000000001"; defaultBrowserType := None |}
           {| name := "chromium"; defaultBrowserType := Some "chromium" |}
           "logo.png" 1700000000001 1700000000000 demo_world (later demo_world));
    reflexivity.
Defined.

(** ** The orchestrator and its helpers at work *)

Lemma writeDataToFile_without_project_throws_witness :
  ∃ msg w',
    (createUniqueFileName {| project := None; attach := λ _ _, None |} "diff.png"
     ≫= writeDataToFile raw_encode logo) demo_world
    = (Throw (TypeError msg), w')
    ∧ files w' = files demo_world.
Proof.
  destruct (writeDataToFile_without_project_throws raw_encode logo
              {| project := None; attach := λ _ _, None |} "diff.png" demo_world eq_refl)
    as (msg & w' & E & Hf & _).
  exists msg, w'. split; assumption.
Defined.


Lemma getMismatchedPixelsCount_missing_baseline_witness :
  files demo_world !! baseline_Webkit_Mobile = None
  ∧ (raw_compare "/tmp/match.png"
       {| project := Some {| name := "Mobile Safari"; defaultBrowserType := Some "webkit" |};
          attach := λ _ _, None |}
       {| _options := Some {| isMobile := Some true |} |} demo_world).1 = Ok None.
Proof.
  split; [vm_compute; reflexivity|].
  unfold raw_compare.
  rewrite (getMismatchedPixelsCount_missing_baseline raw_decode raw_resize raw_encode
             raw_differs raw_diff "/tmp/match.png"
             {| project := Some {| name := "Mobile Safari";
                                   defaultBrowserType := Some "webkit" |};
                attach := λ _ _, None |}
             {| _options := Some {| isMobile := Some true |} |} demo_world
             {| name := "Mobile Safari"; defaultBrowserType := Some "webkit" |}
             {| isMobile := Some true |} eq_refl eq_refl ltac:(vm_compute; reflexivity)).
  reflexivity.
Defined.

(** ** The fetcher's footprint *)

(** X12. Whatever a download ends in, it never breaks with an unhandled
    error and it leaves every path but [<tmpdir>/test_picture.jpg] as it
    found it.  When no acceptable response arrives (malformed URL, request
    error, rejected status or content type) the file system is not touched
    at all, so a file left at the temp path by an earlier download stays. *)
Theorem download_touches_only_temp_path (url : string) (w : World) :
  same_but [posix_join (tmpdir w) "test_picture.jpg"] w (downloadImageFromUrlToTempDir url w).2
  ∧ (∀ e, (downloadImageFromUrlToTempDir url w).1 ≠ Crash e)
  ∧ ((∀ response, network w url = Response response → invalid_response response) →
     files (downloadImageFromUrlToTempDir url w).2 = files w
     ∧ ∃ e, (downloadImageFromUrlToTempDir url w).1 = Throw e).
Proof.
  destruct (network w url) as [|code msg|response] eqn:Hnet.
  - unfold downloadImageFromUrlToTempDir. rewrite Hnet. simpl.
    split; [apply same_but_refl|]. split; [discriminate|]. eauto.
  - unfold downloadImageFromUrlToTempDir. rewrite Hnet. simpl.
    split; [apply same_but_emit, same_but_refl|]. split; [discriminate|]. eauto.
  - destruct (decide (invalid_response response)) as [Hi|Hv].
    + rewrite (download_invalid _ _ _ Hnet Hi). simpl.
      split; [apply same_but_refl|]. split; [discriminate|]. eauto.
    + assert (Hwp : wp (downloadImageFromUrlToTempDir url)
                      (λ r w', same_but [posix_join (tmpdir w) "test_picture.jpg"] w w'
                               ∧ ∀ e, r ≠ Crash e) w).
      { unfold wp at 1. rewrite (download_valid _ _ _ Hnet Hv).
        apply wp_try_catch, wp_bind, wp_pipeline. intros r w1 Hs Hr.
        destruct r as [[]|e|e].
        - unfold wp. simpl. split; [assumption | discriminate].
        - apply wp_cleanup_thrice. intros w' Hs'. split; [|discriminate].
          eapply same_but_trans; eassumption.
        - now destruct (Hr e). }
      destruct Hwp as [Hs Hc]. split; [exact Hs|]. split; [exact Hc|].
      intros Hall. destruct Hv. now apply Hall.
Qed.
